(** * Depth-first iteration over the nodes of a JIT graph

    A shallow embedding of [torch::jit::DepthFirstGraphNodeIterator]
    (torch/csrc/jit/runtime/graph_iterator.h) and the properties of its
    traversal.

    The iterator walks a tree of blocks through the back references
    [Node::owningBlock] and [Block::owningNode].  The embedding keeps that
    shape: nodes and blocks live in two arenas and point at each other by
    index, the cursor is a position in a block's node list, and the member
    functions [move_up], [move_next] and [next] are translated statement by
    statement into an error monad. *)

From stdpp Require Import base decidable option list numbers strings.

(** ** Outcomes of a member function *)

Inductive error :=
  | runtime_error (msg : string)  (* [throw std::runtime_error(msg)] *)
  | out_of_range                  (* [blocks().at(i)] beyond the child blocks *)
  | undefined                     (* a dangling or null pointer is followed, or
                                     an iterator is moved past its list's end *)
  | out_of_fuel.                  (* the climb did not finish within its bound *)

Inductive outcome (A : Type) :=
  | Ok (a : A)
  | Err (e : error).
Arguments Ok {A} a.
Arguments Err {A} e.

Global Instance outcome_ret : MRet outcome := @Ok.
Global Instance outcome_bind : MBind outcome := λ A B k m,
  match m with
  | Ok a => k a
  | Err e => Err e
  end.

Definition from_opt {A} (e : error) (o : option A) : outcome A :=
  match o with
  | Some a => Ok a
  | None => Err e
  end.

(** ** The IR, as far as the iterator reads it *)

(** Modelled from the spec: [Node], [Block] and [Graph] are declared in
    torch/csrc/jit/ir/ir.h, which is not among the sources at hand.  The
    records below hold what the iterator reads through [kind()],
    [owningBlock()], [blocks()], [nodes()], [owningNode()] and [block()],
    as the specification's data model describes them.  Pointers are indices
    into two arenas; a null pointer is [None], a dangling one an index
    outside its arena. *)
Definition node_id := nat.
Definition block_id := nat.

(** [Node::kind()]: the iterator tells [prim::If], [prim::Loop] and
    [prim::With] apart from every other kind. *)
Inductive NodeKind := prim_If | prim_Loop | prim_With | other_kind.

Global Instance NodeKind_eq_dec : EqDecision NodeKind.
Proof. solve_decision. Defined.

Record Node := mkNode {
  kind : NodeKind;
  owningBlock : option block_id;   (* [Node::owningBlock()], nullable *)
  blocks : list block_id           (* [Node::blocks()] *)
}.

Record Block := mkBlock {
  nodes : list node_id;            (* [Block::nodes()], in list order *)
  owningNode : option node_id      (* [Block::owningNode()], null for the root *)
}.

Record Graph := mkGraph {
  node_arena : list Node;
  block_arena : list Block;
  block : block_id                 (* [Graph::block()], the root block *)
}.

Definition get_node (g : Graph) (n : node_id) : outcome Node :=
  from_opt undefined (node_arena g !! n).

Definition get_block (g : Graph) (b : block_id) : outcome Block :=
  from_opt undefined (block_arena g !! b).

(** [ArrayRef::at(i)] on the child blocks of a node. *)
Definition at_ (bs : list block_id) (i : nat) : outcome block_id :=
  from_opt out_of_range (bs !! i).

(** ** Node-list iterators *)

(** Modelled from the spec: [graph_node_list_iterator] is declared in
    torch/csrc/jit/ir/graph_node_list.h, which is not among the sources at
    hand.  Following the specification's description of the cursor state
    ("current block + current position within it", with a distinguished
    exhausted state) and of [Block.nodes()] ("an ordered, forward-iterable
    sequence of nodes, with a well-defined end sentinel"), an iterator is
    either the default-constructed one or a position in the node list of a
    block; position [length (nodes b)] is [b]'s end.  Two iterators are equal
    when they are the same position. *)
Inductive graph_node_list_iterator :=
  | it_null                              (* [graph_node_list_iterator()] *)
  | it_at (b : block_id) (i : nat).

Global Instance iterator_eq_dec : EqDecision graph_node_list_iterator.
Proof. solve_decision. Defined.

(** Modelled from the spec: what [operator*] yields.  The null pointer for
    the default-constructed iterator (the source tests [*current_ == nullptr]
    for it), the node at a position of a list, and at the end of a list its
    end sentinel, which is no node of the block and is not the null pointer
    (the source compares with [end()] and then assigns the default-constructed
    iterator, "If we've reached the end now set to null").  What [kind()],
    [owningBlock()] and [++] do on the end sentinel is not described, and
    [move_next] below has no outcome there. *)
Inductive NodePtr :=
  | nullptr
  | node_ptr (n : node_id)
  | end_of (b : block_id).

Global Instance NodePtr_eq_dec : EqDecision NodePtr.
Proof. solve_decision. Defined.

Definition nodes_of (g : Graph) (b : block_id) : list node_id :=
  match block_arena g !! b with
  | Some blk => nodes blk
  | None => []
  end.

Definition deref (g : Graph) (it : graph_node_list_iterator) : NodePtr :=
  match it with
  | it_null => nullptr
  | it_at b i =>
      match nodes_of g b !! i with
      | Some n => node_ptr n
      | None => end_of b
      end
  end.

(** [b->nodes().begin()] and [b->nodes().end()]. *)
Definition begin_ (b : block_id) : graph_node_list_iterator := it_at b 0.
Definition end_ (g : Graph) (b : block_id) : graph_node_list_iterator :=
  it_at b (length (nodes_of g b)).

(** [it = b->nodes().begin(); while ( *it != n) ++it;] walks to the first
    position holding [n]; when [n] is not in the list the loop leaves the
    list. *)
Fixpoint index_of (n : node_id) (l : list node_id) : option nat :=
  match l with
  | [] => None
  | m :: l' => if decide (m = n) then Some 0 else S <$> index_of n l'
  end.

Definition find_in (g : Graph) (b : block_id) (n : node_id) : outcome nat :=
  from_opt undefined (index_of n (nodes_of g b)).

(** The test made in four places of [move_up]:
    [current_ = it; ++current_; if (current_ == b->nodes().end()) ...],
    with [it] at position [i] of [b]. *)
Definition at_end_after (g : Graph) (b : block_id) (i : nat) : bool :=
  bool_decide (it_at b (S i) = end_ g b).

(** ** The iterator *)

(** The only data member is [current_]. *)
Definition DepthFirstGraphNodeIterator (g : Graph) : graph_node_list_iterator :=
  begin_ (block g).

Definition no_child_blocks_msg : string :=
  "Node should not have had any child blocks."%string.

(** The step that [move_up] takes in three places:
    [current_ = owning_node_it; ++current_;
     if (current_ == owning_node_block->nodes().end()) move_up( *owning_node_it);]
    with [owning_node_it] at position [i] of [b], where it found [n]. *)
Definition advance_or_up (move_up : node_id → outcome graph_node_list_iterator)
    (g : Graph) (b : block_id) (i : nat) (n : node_id)
  : outcome graph_node_list_iterator :=
  if at_end_after g b i then move_up n else Ok (it_at b (S i)).

(** The body of [move_up(from)]; the calls the C++ function makes to itself
    go through the parameter [move_up]. *)
Definition move_up_body (move_up : node_id → outcome graph_node_list_iterator)
    (g : Graph) (from : node_id) : outcome graph_node_list_iterator :=
  from_node ← get_node g from;
  match owningBlock from_node with
  | None => Ok it_null
  | Some parent_block =>
      pb ← get_block g parent_block;
      match owningNode pb with
      | None =>
          i ← find_in g parent_block from;
          if at_end_after g parent_block i then Ok it_null
          else Ok (it_at parent_block (S i))
      | Some owning_node =>
          on ← get_node g owning_node;
          owning_node_block ← from_opt undefined (owningBlock on);
          _ ← get_block g owning_node_block;
          i ← find_in g owning_node_block owning_node;
          match kind on with
          | prim_If =>
              then_block ← at_ (blocks on) 0;
              else_block ← at_ (blocks on) 1;
              if decide (parent_block = else_block)
              then advance_or_up move_up g owning_node_block i owning_node
              else
                eb ← get_block g else_block;
                let else_block_empty :=
                  bool_decide (begin_ else_block = end_ g else_block) in
                if negb else_block_empty then Ok (begin_ else_block)
                else advance_or_up move_up g owning_node_block i owning_node
          | prim_Loop | prim_With =>
              advance_or_up move_up g owning_node_block i owning_node
          | other_kind =>
              Err (runtime_error no_child_blocks_msg)
          end
      end
  end.

(** [move_up(from)], the recursion bounded by [fuel]: one unit per call. *)
Fixpoint move_up_fuel (fuel : nat) (g : Graph) (from : node_id)
  : outcome graph_node_list_iterator :=
  match fuel with
  | 0 => Err out_of_fuel
  | S fuel' => move_up_body (move_up_fuel fuel' g) g from
  end.

(** A climb passes through each block at most once when no block is its own
    ancestor, so one unit of fuel per block of the graph is enough. *)
Definition move_up (g : Graph) (from : node_id)
  : outcome graph_node_list_iterator :=
  move_up_fuel (length (block_arena g)) g from.

(** [move_next()], as a function of [current_].  When [current_] is at the
    end of a list, the source goes on to read [kind()] and [owningBlock()]
    of the end sentinel; the model gives no outcome for that. *)
Definition move_next (g : Graph) (current_ : graph_node_list_iterator)
  : outcome graph_node_list_iterator :=
  match current_, deref g current_ with
  | _, nullptr => Ok current_
  | it_at cb ci, node_ptr node =>
      nd ← get_node g node;
      match kind nd with
      | prim_If =>
          then_block ← at_ (blocks nd) 0;
          else_block ← at_ (blocks nd) 1;
          _ ← get_block g then_block;
          _ ← get_block g else_block;
          let then_block_empty :=
            bool_decide (begin_ then_block = end_ g then_block) in
          let else_block_empty :=
            bool_decide (begin_ else_block = end_ g else_block) in
          if negb then_block_empty then Ok (begin_ then_block)
          else if negb else_block_empty then Ok (begin_ else_block)
          else move_up g node
      | prim_Loop | prim_With =>
          body_block ← at_ (blocks nd) 0;
          _ ← get_block g body_block;
          let body_block_empty :=
            bool_decide (begin_ body_block = end_ g body_block) in
          if negb body_block_empty then Ok (begin_ body_block)
          else Ok current_
      | other_kind =>
          let previous := node in
          block_ ← from_opt undefined (owningBlock nd);
          _ ← get_block g block_;
          if bool_decide (it_at cb (S ci) = end_ g block_)
          then move_up g previous
          else Ok (it_at cb (S ci))
      end
  | _, _ => Err undefined
  end.

(** [next()]: the value returned and the new [current_]. *)
Definition next (g : Graph) (current_ : graph_node_list_iterator)
  : outcome (NodePtr * graph_node_list_iterator) :=
  let result := deref g current_ in
  c' ← move_next g current_;
  Ok (result, c').

(** [k] calls of [next()] in a row: the values returned, in order, and the
    final [current_]. *)
Fixpoint nexts (k : nat) (g : Graph) (current_ : graph_node_list_iterator)
  : outcome (list NodePtr * graph_node_list_iterator) :=
  match k with
  | 0 => Ok ([], current_)
  | S k' =>
      '(r, c') ← next g current_;
      '(rs, c'') ← nexts k' g c';
      Ok (r :: rs, c'')
  end.

(** ** Well-formed graphs *)

Definition owner_block (g : Graph) (n : node_id) : option block_id :=
  node_arena g !! n ≫= owningBlock.

Definition owner_node (g : Graph) (b : block_id) : option node_id :=
  block_arena g !! b ≫= owningNode.

Definition kind_of (g : Graph) (n : node_id) : option NodeKind :=
  kind <$> node_arena g !! n.

Definition blocks_of (g : Graph) (n : node_id) : list block_id :=
  match node_arena g !! n with
  | Some nd => blocks nd
  | None => []
  end.

(** Only [prim::If] (two blocks), [prim::Loop] and [prim::With] (one block)
    have child blocks. *)
Definition child_blocks_ok (k : NodeKind) (bs : list block_id) : Prop :=
  match k with
  | prim_If => length bs = 2
  | prim_Loop | prim_With => length bs = 1
  | other_kind => length bs = 0
  end.

Global Instance child_blocks_ok_dec k bs : Decision (child_blocks_ok k bs).
Proof. destruct k; simpl; apply _. Defined.

(** The chain of owners of block [b] arrives at a block without owning node
    in fewer than [fuel] steps. *)
Fixpoint reaches_root (fuel : nat) (g : Graph) (b : block_id) : bool :=
  match fuel with
  | 0 => false
  | S fuel' =>
      match block_arena g !! b with
      | None => false
      | Some blk =>
          match owningNode blk with
          | None => true
          | Some n =>
              match owner_block g n with
              | Some b' => reaches_root fuel' g b'
              | None => false
              end
          end
      end
  end.

(** The invariants of the data model: the root block exists and is the only
    block without owning node; every node sits, once, in the block it names
    as its owner, and nowhere else; the child blocks of a node are distinct,
    as many as its kind has, and name it as their owner, and a block is a
    child of the node it names; no block is its own ancestor. *)
Record well_formed (g : Graph) : Prop := {
  wf_root : block g < length (block_arena g) ∧ owner_node g (block g) = None;
  wf_root_only : ∀ b,
    b < length (block_arena g) → owner_node g b = None → b = block g;
  wf_node_placed : ∀ n,
    n < length (node_arena g) →
    ∃ b, owner_block g n = Some b ∧ n ∈ nodes_of g b;
  wf_block_nodes : ∀ b n, n ∈ nodes_of g b → owner_block g n = Some b;
  wf_nodes_nodup : ∀ b, NoDup (nodes_of g b);
  wf_arity : ∀ n nd,
    node_arena g !! n = Some nd →
    child_blocks_ok (kind nd) (blocks nd) ∧ NoDup (blocks nd);
  wf_children : ∀ n c, c ∈ blocks_of g n → owner_node g c = Some n;
  wf_owner : ∀ b n, owner_node g b = Some n → b ∈ blocks_of g n;
  wf_acyclic : ∀ b,
    b < length (block_arena g) →
    reaches_root (length (block_arena g)) g b = true
}.

(** An executable check of the same conditions. *)
Definition node_placed (g : Graph) (n : node_id) : Prop :=
  match owner_block g n with
  | Some b => n ∈ nodes_of g b
  | None => False
  end.

Global Instance node_placed_dec g n : Decision (node_placed g n).
Proof. unfold node_placed. destruct (owner_block g n); apply _. Defined.

Definition owner_lists (g : Graph) (b : block_id) : Prop :=
  match owner_node g b with
  | Some n => b ∈ blocks_of g n
  | None => True
  end.

Global Instance owner_lists_dec g b : Decision (owner_lists g b).
Proof. unfold owner_lists. destruct (owner_node g b); apply _. Defined.

Definition node_ids (g : Graph) : list node_id := seq 0 (length (node_arena g)).
Definition block_ids (g : Graph) : list block_id := seq 0 (length (block_arena g)).

Definition well_formed_b (g : Graph) : bool :=
  bool_decide (block g < length (block_arena g) ∧ owner_node g (block g) = None)
  && bool_decide (Forall (λ b, owner_node g b = None → b = block g) (block_ids g))
  && bool_decide (Forall (node_placed g) (node_ids g))
  && bool_decide (Forall (λ b, Forall (λ n, owner_block g n = Some b) (nodes_of g b))
                         (block_ids g))
  && bool_decide (Forall (λ b, NoDup (nodes_of g b)) (block_ids g))
  && bool_decide (Forall (λ nd, child_blocks_ok (kind nd) (blocks nd) ∧
                                NoDup (blocks nd)) (node_arena g))
  && bool_decide (Forall (λ n, Forall (λ c, owner_node g c = Some n) (blocks_of g n))
                         (node_ids g))
  && bool_decide (Forall (owner_lists g) (block_ids g))
  && bool_decide (Forall (λ b, reaches_root (length (block_arena g)) g b = true)
                         (block_ids g)).

(** ** Vocabulary of the properties *)

(** The cursor stands on a node of some block. *)
Definition at_node (g : Graph) (c : graph_node_list_iterator) : Prop :=
  ∃ b i n, c = it_at b i ∧ nodes_of g b !! i = Some n.

(** The cursor stands on a node or is the default-constructed iterator. *)
Definition cursor_ok (g : Graph) (c : graph_node_list_iterator) : Prop :=
  c = it_null ∨ at_node g c.

(** From cursor [c], successive calls of [next()] return the nodes [ns], in
    order, and leave the cursor at [c']. *)
Definition emits (g : Graph) (c : graph_node_list_iterator)
    (ns : list node_id) (c' : graph_node_list_iterator) : Prop :=
  nexts (length ns) g c = Ok (node_ptr <$> ns, c').

(** The pre-order flattening of the block tree: the nodes of block [b] in
    list order, each followed by the listings of its child blocks in their
    order.  [fuel] bounds the nesting. *)
Fixpoint preorder_block (fuel : nat) (g : Graph) (b : block_id) : list node_id :=
  match fuel with
  | 0 => []
  | S fuel' =>
      n ← nodes_of g b; n :: (c ← blocks_of g n; preorder_block fuel' g c)
  end.

(** The node [n] and the listings of its child blocks. *)
Definition subtree (fuel : nat) (g : Graph) (n : node_id) : list node_id :=
  n :: (c ← blocks_of g n; preorder_block fuel g c).

(** The listing of the whole graph; the nesting of a graph in which no
    block is its own ancestor is less deep than it has blocks. *)
Definition preorder (g : Graph) : list node_id :=
  preorder_block (length (block_arena g)) g (block g).

(** Where the climb from the last node of block [b] arrives. *)
Definition block_exit (g : Graph) (b : block_id)
  : outcome graph_node_list_iterator :=
  match last (nodes_of g b) with
  | Some n => move_up g n
  | None => Err undefined
  end.

(** Where the cursor goes once the child block [c] of the node [on], which
    stands at position [i] of block [b], is exhausted. *)
Definition after_child (g : Graph) (c : block_id) (on : node_id) (ond : Node)
    (b : block_id) (i : nat) : outcome graph_node_list_iterator :=
  match kind ond, blocks ond with
  | prim_If, [t; e] =>
      if decide (c = e) then advance_or_up (move_up g) g b i on
      else if bool_decide (nodes_of g e = [])
      then advance_or_up (move_up g) g b i on
      else Ok (begin_ e)
  | prim_Loop, [_] | prim_With, [_] => advance_or_up (move_up g) g b i on
  | _, _ => Err undefined
  end.

(** An [If] node both of whose blocks are empty. *)
Definition empty_if (g : Graph) (n : node_id) : Prop :=
  kind_of g n = Some prim_If ∧ Forall (λ c, nodes_of g c = []) (blocks_of g n).

Global Instance empty_if_dec g n : Decision (empty_if g n).
Proof. unfold empty_if. apply _. Defined.

(** Every [Loop] and [With] node has a node in its body. *)
Definition region_bodies_nonempty (g : Graph) : Prop :=
  Forall (λ nd, kind nd = prim_Loop ∨ kind nd = prim_With →
                Forall (λ c, nodes_of g c ≠ []) (blocks nd))
         (node_arena g).

(** An [If] node with two empty blocks stands in the root block or is the
    last node of its block. *)
Definition empty_ifs_last (g : Graph) : Prop :=
  Forall (λ b, b ≠ block g →
               Forall (λ n, ¬ empty_if g n)
                      (take (pred (length (nodes_of g b))) (nodes_of g b)))
         (block_ids g).

(** The block that holds the owner of block [b]. *)
Definition up (g : Graph) (b : block_id) : option block_id :=
  owner_node g b ≫= owner_block g.

(** The [j]-th block above [b]. *)
Fixpoint up_n (j : nat) (g : Graph) (b : block_id) : option block_id :=
  match j with
  | 0 => Some b
  | S j' => up g b ≫= up_n j' g
  end.

(** What the proof of the traversal order shows for the blocks, and for the
    nodes, whose nesting below them is less than [f] deep; [d] counts the
    blocks above. *)
Definition traverses_block (g : Graph) (f : nat) : Prop :=
  ∀ c d k,
    d + f = length (block_arena g) →
    reaches_root d g c = false →
    nodes_of g c ≠ [] →
    block_exit g c = Ok k →
    emits g (begin_ c) (preorder_block f g c) k.

Definition traverses_node (g : Graph) (f : nat) : Prop :=
  ∀ b d i n k,
    d + S f = length (block_arena g) →
    reaches_root d g b = false →
    nodes_of g b !! i = Some n →
    advance_or_up (move_up g) g b i n = Ok k →
    emits g (it_at b i) (subtree f g n) k.

(** ** Example graphs *)

Module Examples.

Definition plain (b : block_id) : Node := mkNode other_kind (Some b) [].

(** Root block [[A; B; C]]. *)
Definition g_plain : Graph :=
  mkGraph [plain 0; plain 0; plain 0] [mkBlock [0; 1; 2] None] 0.

(** Root block [[A; If(then=[B], else=[C]); D]]:
    nodes A=0, If=1, B=2, C=3, D=4; blocks root=0, then=1, else=2. *)
Definition g_cond : Graph :=
  mkGraph
    [plain 0; mkNode prim_If (Some 0) [1; 2]; plain 1; plain 2; plain 0]
    [mkBlock [0; 1; 4] None; mkBlock [2] (Some 1); mkBlock [3] (Some 1)]
    0.

(** Root block [[A; If(then=[], else=[C]); D]]:
    nodes A=0, If=1, C=2, D=3; blocks root=0, then=1, else=2. *)
Definition g_cond_else : Graph :=
  mkGraph
    [plain 0; mkNode prim_If (Some 0) [1; 2]; plain 2; plain 0]
    [mkBlock [0; 1; 3] None; mkBlock [] (Some 1); mkBlock [2] (Some 1)]
    0.

(** Root block [[A; Loop(body=[B; Loop(body=[C])]); D]]:
    nodes A=0, R1=1, B=2, R2=3, C=4, D=5; blocks root=0, body1=1, body2=2. *)
Definition g_nested : Graph :=
  mkGraph
    [plain 0; mkNode prim_Loop (Some 0) [1]; plain 1;
     mkNode prim_Loop (Some 1) [2]; plain 2; plain 0]
    [mkBlock [0; 1; 5] None; mkBlock [2; 3] (Some 1); mkBlock [4] (Some 3)]
    0.

(** Root block [[A; Loop(body=[]); D]]:
    nodes A=0, R=1, D=2; blocks root=0, body=1. *)
Definition g_empty_region : Graph :=
  mkGraph
    [plain 0; mkNode prim_Loop (Some 0) [1]; plain 0]
    [mkBlock [0; 1; 2] None; mkBlock [] (Some 1)]
    0.

(** Root block [[Loop(body=[If(then=[], else=[]); X]); D]]:
    nodes L=0, If=1, X=2, D=3; blocks root=0, body=1, then=2, else=3. *)
Definition g_skip : Graph :=
  mkGraph
    [mkNode prim_Loop (Some 0) [1]; mkNode prim_If (Some 1) [2; 3];
     plain 1; plain 0]
    [mkBlock [0; 3] None; mkBlock [1; 2] (Some 0);
     mkBlock [] (Some 1); mkBlock [] (Some 1)]
    0.

(** Root block [[If(then=[With(body=[])], else=[C])]]:
    nodes If=0, W=1, C=2; blocks root=0, then=1, else=2, body=3. *)
Definition g_then_stall : Graph :=
  mkGraph
    [mkNode prim_If (Some 0) [1; 2]; mkNode prim_With (Some 1) [3]; plain 2]
    [mkBlock [0] None; mkBlock [1] (Some 0); mkBlock [2] (Some 0);
     mkBlock [] (Some 1)]
    0.

(** Root block [[If(then=[], else=[]); X]]:
    nodes If=0, X=1; blocks root=0, then=1, else=2. *)
Definition g_empty_if_root : Graph :=
  mkGraph
    [mkNode prim_If (Some 0) [1; 2]; plain 0]
    [mkBlock [0; 1] None; mkBlock [] (Some 0); mkBlock [] (Some 0)]
    0.

(** The graph without nodes. *)
Definition g_empty : Graph := mkGraph [] [mkBlock [] None] 0.

(** Not well formed: block 1 names node 0 as its owner, and node 0 has
    neither child blocks nor a kind that allows them.
    nodes P=0, Q=1; blocks root=0, stray=1. *)
Definition g_bad_owner : Graph :=
  mkGraph
    [plain 0; plain 1]
    [mkBlock [0] None; mkBlock [1] (Some 0)]
    0.

End Examples.

(** ** The NNAPI preprocess function

    [preprocess] of torch/csrc/jit/backends/nnapi/nnapi_backend_preprocess.cpp
    checks the compile spec, hands the module and the input description to
    the Python converter and wraps the serialized result in a dictionary. *)

Module Nnapi.

Section Preprocess.
Context {Tensor ScriptModule PyObject PyErr DebugHandles : Type}.

(** Modelled from the spec: [c10::IValue] and [c10::Dict] are declared in
    ATen/core, which is not among the sources at hand; the specification
    only says that the compile spec describes the expected input tensors.
    The constructors are the tags the source tests ([isTensor],
    [isTensorList], [isGenericDict]), the string tag of the keys, the
    default-constructed value, and one constructor for every other tag.  A
    dictionary is the list of its entries in insertion order. *)
#[warnings="-register-all"]
Inductive IValue :=
  | IVNone
  | IVTensor (t : Tensor)
  | IVTensorList (ts : list Tensor)
  | IVString (s : string)
  | IVGenericDict (d : list (IValue * IValue))
  | IVOther.

Definition Dict := list (IValue * IValue).

(** What the function can throw: its own [std::runtime_error], the
    [std::out_of_range] of [Dict::at], the failed tag check of an [IValue]
    accessor, and whatever a call into Python raises. *)
Inductive exn :=
  | std_runtime_error (msg : string)
  | std_out_of_range
  | ivalue_tag_error
  | python_error (e : PyErr).

Inductive res (A : Type) :=
  | Ret (a : A)
  | Throw (e : exn).
Arguments Ret {A} a.
Arguments Throw {A} e.

Global Instance res_ret : MRet res := @Ret.
Global Instance res_bind : MBind res := λ A B k m,
  match m with
  | Ret a => k a
  | Throw e => Throw e
  end.

(** A key given as a C string is an [IValue] with the string tag. *)
Definition key_is (key : string) (k : IValue) : bool :=
  match k with
  | IVString s => bool_decide (s = key)
  | _ => false
  end.

Fixpoint dict_find (d : Dict) (key : string) : option IValue :=
  match d with
  | [] => None
  | (k, v) :: d' => if key_is key k then Some v else dict_find d' key
  end.

(** [Dict::contains], [Dict::at] and [Dict::insert]. *)
Definition contains (d : Dict) (key : string) : bool :=
  bool_decide (is_Some (dict_find d key)).

Definition dict_at (d : Dict) (key : string) : res IValue :=
  match dict_find d key with
  | Some v => Ret v
  | None => Throw std_out_of_range
  end.

Definition insert (d : Dict) (key : string) (v : IValue) : Dict :=
  if contains d key then d else d ++ [(IVString key, v)].

Definition isTensor (v : IValue) : bool :=
  match v with IVTensor _ => true | _ => false end.
Definition isTensorList (v : IValue) : bool :=
  match v with IVTensorList _ => true | _ => false end.
Definition isGenericDict (v : IValue) : bool :=
  match v with IVGenericDict _ => true | _ => false end.

Definition toTensor (v : IValue) : res Tensor :=
  match v with IVTensor t => Ret t | _ => Throw ivalue_tag_error end.
Definition toTensorList (v : IValue) : res (list Tensor) :=
  match v with IVTensorList ts => Ret ts | _ => Throw ivalue_tag_error end.
Definition toGenericDict (v : IValue) : res Dict :=
  match v with IVGenericDict d => Ret d | _ => Throw ivalue_tag_error end.

(** The second argument of the converter: a tensor or a Python list of
    tensors. *)
Inductive PyArg :=
  | py_tensor (t : Tensor)
  | py_list (ts : list Tensor).

(** The calls into Python and into the mobile serializer, which the source
    makes and does not define.  A Python object is passed as its state:
    [out.attr("eval")()] yields the state of [out] afterwards. *)
Record Python := {
  py_import_convert : res unit;
    (* import torch.backends._nnapi.prepare, attribute convert_model_to_nnapi *)
  py_wrap_cpp_module : ScriptModule → res PyObject;
  py_eval : PyObject → res PyObject;
  py_convert_model_to_nnapi : PyObject → PyArg → res PyObject;
  py_cast_c : PyObject → res ScriptModule;
    (* py::cast<torch::jit::Module>(obj.attr("_c")) *)
  save_for_mobile : ScriptModule → res string
}.

(** The double-quote and newline characters of the C++ string literals. *)
Definition dq : string := String (Ascii.ascii_of_nat 34) EmptyString.
Definition nl : string := String (Ascii.ascii_of_nat 10) EmptyString.

Definition no_forward_msg : string :=
  "method_compile_spec does not contain the " +:+ dq +:+ "forward" +:+ dq
  +:+ " key.".

Definition no_inputs_msg : string :=
  "method_compile_spec does not contain a dictionary with an " +:+ dq
  +:+ "inputs" +:+ dq +:+ " key, under it's " +:+ dq +:+ "forward" +:+ dq
  +:+ " key.".

Definition no_tensor_msg : string :=
  "method_compile_spec does not contain either a Tensor or TensorList, under it's "
  +:+ dq +:+ "inputs" +:+ dq +:+ " key.".

Definition format_help : string :=
  nl +:+ "method_compile_spec should contain a Tensor or Tensor List which bundles input parameters:"
  +:+ " shape, dtype, quantization, and dimorder."
  +:+ nl +:+ "For input shapes, use 0 for run/load time flexible input."
  +:+ nl +:+ "method_compile_spec must use the following format:"
  +:+ nl +:+ "{" +:+ dq +:+ "forward" +:+ dq +:+ ": {" +:+ dq +:+ "inputs"
  +:+ dq +:+ ": at::Tensor}} OR {" +:+ dq +:+ "forward" +:+ dq +:+ ": {"
  +:+ dq +:+ "inputs" +:+ dq +:+ ": c10::List<at::Tensor>}}".

(** "Test that method_compile_spec contains the necessary keys and
    Tensor/TensorList input": the values of [inp] and [error] after the
    nested tests. *)
Definition check_compile_spec (method_compile_spec : Dict)
  : res (IValue * string) :=
  let inp := IVNone in
  let error := EmptyString in
  if negb (contains method_compile_spec "forward") then
    Ret (inp, no_forward_msg)
  else
    innerDict ← dict_at method_compile_spec "forward";
    if negb (isGenericDict innerDict) then Ret (inp, no_inputs_msg)
    else
      d ← toGenericDict innerDict;
      if negb (contains d "inputs") then Ret (inp, no_inputs_msg)
      else
        inp ← dict_at d "inputs";
        if negb (isTensor inp) && negb (isTensorList inp)
        then Ret (inp, no_tensor_msg)
        else Ret (inp, error).

(** [preprocess(mod, method_compile_spec, generate_debug_handles)]. *)
Definition preprocess (py : Python) (mod_ : ScriptModule)
    (method_compile_spec : Dict) (generate_debug_handles : DebugHandles)
  : res Dict :=
  _ ← py_import_convert py;
  out ← py_wrap_cpp_module py mod_;
  out ← py_eval py out;
  '(inp, error) ← check_compile_spec method_compile_spec;
  if bool_decide (String.length error ≠ 0) then
    Throw (std_runtime_error (error +:+ format_help))
  else
    nnapi_pyModel ←
      (if isTensor inp then
         t ← toTensor inp;
         py_convert_model_to_nnapi py out (py_tensor t)
       else
         ts ← toTensorList inp;
         let pyInp := foldl (λ pyInp inpElem, pyInp ++ [inpElem]) [] ts in
         py_convert_model_to_nnapi py out (py_list pyInp));
    nnapi_model ← py_cast_c py nnapi_pyModel;
    ss ← save_for_mobile py nnapi_model;
    let dict := [] in
    Ret (insert dict "NnapiModule" (IVString ss)).

(** The input the compile spec describes, when it has the format
    [{"forward": {"inputs": Tensor}}] or
    [{"forward": {"inputs": TensorList}}]. *)
Definition spec_input (spec : Dict) : option PyArg :=
  match dict_find spec "forward" with
  | Some (IVGenericDict d) =>
      match dict_find d "inputs" with
      | Some (IVTensor t) => Some (py_tensor t)
      | Some (IVTensorList ts) => Some (py_list ts)
      | _ => None
      end
  | _ => None
  end.

(** The message for a compile spec without that format. *)
Definition spec_error (spec : Dict) : string :=
  match dict_find spec "forward" with
  | None => no_forward_msg
  | Some (IVGenericDict d) =>
      match dict_find d "inputs" with
      | None => no_inputs_msg
      | Some _ => no_tensor_msg
      end
  | Some _ => no_inputs_msg
  end.

(** The [IValue] that holds a converter argument. *)
Definition arg_value (a : PyArg) : IValue :=
  match a with
  | py_tensor t => IVTensor t
  | py_list ts => IVTensorList ts
  end.

(** A call raises nothing but Python's own errors. *)
Definition only_python {A} (r : res A) : Prop :=
  ∀ e, r = Throw e → ∃ pe, e = python_error pe.

Definition python_raises (py : Python) : Prop :=
  only_python (py_import_convert py) ∧
  (∀ m, only_python (py_wrap_cpp_module py m)) ∧
  (∀ o, only_python (py_eval py o)) ∧
  (∀ o a, only_python (py_convert_model_to_nnapi py o a)) ∧
  (∀ o, only_python (py_cast_c py o)) ∧
  (∀ m, only_python (save_for_mobile py m)).

End Preprocess.

Arguments IValue : clear implicits.
Arguments Dict : clear implicits.
Arguments exn : clear implicits.
Arguments res : clear implicits.
Arguments Ret {PyErr A} a.
Arguments Throw {PyErr A} e.
Arguments PyArg : clear implicits.
Arguments Python : clear implicits.

End Nnapi.

Module NnapiExamples.
Import Nnapi.

(** Tensors, modules and Python objects are numbers; the converter adds the
    tensors to the module, the serializer writes one of two texts. *)
Definition py_sum : Python nat nat nat unit := {|
  py_import_convert := Ret ();
  py_wrap_cpp_module := λ m, Ret m;
  py_eval := λ o, Ret o;
  py_convert_model_to_nnapi := λ o a,
    Ret (o + match a with py_tensor t => t | py_list ts => sum_list ts end);
  py_cast_c := λ o, Ret o;
  save_for_mobile := λ m, Ret (if bool_decide (m = 0) then "empty" else "blob")
|}.

(** [{"forward": {"inputs": [1, 2]}}] with a list of two tensors. *)
Definition spec_list : Dict nat :=
  [(IVString "forward",
    IVGenericDict [(IVString "inputs", IVTensorList [1; 2])])].

(** [{"forward": {"shapes": 1}}]: no ["inputs"] key. *)
Definition spec_no_inputs : Dict nat :=
  [(IVString "forward", IVGenericDict [(IVString "shapes", IVTensor 1)])].

End NnapiExamples.

(** ** Basic facts about the accessors *)

Section Accessors.
Context (g : Graph).

Lemma owner_block_Some n b :
  owner_block g n = Some b ↔
  ∃ nd, node_arena g !! n = Some nd ∧ owningBlock nd = Some b.
Proof.
  unfold owner_block. destruct (node_arena g !! n) as [nd|]; simpl.
  - split; [eauto | intros (? & [= <-] & ?); done].
  - split; [done | intros (? & ? & ?); done].
Qed.

Lemma owner_node_Some b n :
  owner_node g b = Some n ↔
  ∃ blk, block_arena g !! b = Some blk ∧ owningNode blk = Some n.
Proof.
  unfold owner_node. destruct (block_arena g !! b) as [blk|]; simpl.
  - split; [eauto | intros (? & [= <-] & ?); done].
  - split; [done | intros (? & ? & ?); done].
Qed.

Lemma nodes_of_lookup b blk :
  block_arena g !! b = Some blk → nodes_of g b = nodes blk.
Proof. unfold nodes_of. by intros ->. Qed.

Lemma blocks_of_lookup n nd :
  node_arena g !! n = Some nd → blocks_of g n = blocks nd.
Proof. unfold blocks_of. by intros ->. Qed.

Lemma nodes_of_elem_valid b n :
  n ∈ nodes_of g b → b < length (block_arena g).
Proof.
  unfold nodes_of. destruct (block_arena g !! b) eqn:E.
  - intros _. by eapply lookup_lt_Some.
  - by intros ?%elem_of_nil.
Qed.

Lemma begin_is_end b :
  bool_decide (begin_ b = end_ g b) = bool_decide (nodes_of g b = []).
Proof.
  apply bool_decide_ext. unfold begin_, end_. split.
  - intros [= H]. by destruct (nodes_of g b).
  - by intros ->.
Qed.

Lemma at_end_after_spec b i :
  at_end_after g b i = bool_decide (S i = length (nodes_of g b)).
Proof.
  apply bool_decide_ext. unfold end_. split; [by intros [= ->] | by intros ->].
Qed.

Lemma deref_node b i n :
  deref g (it_at b i) = node_ptr n ↔ nodes_of g b !! i = Some n.
Proof.
  simpl. destruct (nodes_of g b !! i); split; intros; by simplify_eq.
Qed.

Lemma deref_null c : deref g c = nullptr ↔ c = it_null.
Proof.
  destruct c as [|b i]; simpl; [done|].
  destruct (nodes_of g b !! i); split; intros; by simplify_eq.
Qed.

End Accessors.

Lemma index_of_Some n l i :
  index_of n l = Some i → l !! i = Some n ∧ i < length l.
Proof.
  revert i. induction l as [|m l IH]; intros i; simpl; [done|].
  case_decide as Hm.
  - intros [= <-]. subst. split; [done | lia].
  - destruct (index_of n l) as [j|]; simpl; [|done].
    intros [= <-]. destruct (IH j eq_refl). split; [done | lia].
Qed.

Lemma index_of_elem n l : n ∈ l → is_Some (index_of n l).
Proof.
  induction 1 as [|m k l Hin IH]; simpl.
  - rewrite decide_True; eauto.
  - case_decide; [eauto|]. destruct IH as [j ->]. simpl. eauto.
Qed.

Lemma index_of_lookup n l i :
  NoDup l → l !! i = Some n → index_of n l = Some i.
Proof.
  intros Hnd Hi. destruct (index_of_elem n l) as [j Hj].
  { by eapply list_elem_of_lookup_2. }
  destruct (index_of_Some _ _ _ Hj) as [Hj' _].
  rewrite Hj. f_equal. by eapply NoDup_lookup.
Qed.

(** ** The executable check is sound *)

Lemma well_formed_b_sound g : well_formed_b g = true → well_formed g.
Proof.
  unfold well_formed_b. rewrite !andb_true_iff, !bool_decide_eq_true.
  unfold node_ids, block_ids. rewrite !Forall_forall.
  intros ((((((((Hroot & Honly) & Hplaced) & Hbn) & Hnd) & Har) & Hch) & Hown) & Hacy).
  split.
  - done.
  - intros b Hb. apply Honly. apply elem_of_seq. lia.
  - intros n Hn. specialize (Hplaced n). unfold node_placed in Hplaced.
    destruct (owner_block g n) as [b|]; [exists b | exfalso];
      (split || idtac); try done; apply Hplaced, elem_of_seq; lia.
  - intros b n Hin. pose proof (nodes_of_elem_valid _ _ _ Hin) as Hb.
    specialize (Hbn b). rewrite Forall_forall in Hbn.
    apply Hbn; [apply elem_of_seq; lia | done].
  - intros b. destruct (decide (b < length (block_arena g))) as [Hb|Hb].
    + apply Hnd, elem_of_seq. lia.
    + unfold nodes_of. rewrite lookup_ge_None_2 by lia. constructor.
  - intros n nd Hn. apply Har. by eapply list_elem_of_lookup_2.
  - intros n c Hin.
    assert (n < length (node_arena g)) as Hlt.
    { unfold blocks_of in Hin. destruct (node_arena g !! n) eqn:E.
      - by eapply lookup_lt_Some.
      - by apply elem_of_nil in Hin. }
    specialize (Hch n). rewrite Forall_forall in Hch.
    apply Hch; [apply elem_of_seq; lia | done].
  - intros b n Hb.
    assert (b < length (block_arena g)) as Hlt.
    { apply owner_node_Some in Hb as (blk & Hblk & _). by eapply lookup_lt_Some. }
    specialize (Hown b). unfold owner_lists in Hown. rewrite Hb in Hown.
    apply Hown, elem_of_seq. lia.
  - intros b Hb. apply Hacy, elem_of_seq. lia.
Qed.

(** ** The cursor invariant *)

Lemma at_node_intro g b i :
  i < length (nodes_of g b) → at_node g (it_at b i).
Proof.
  intros Hi. destruct (lookup_lt_is_Some_2 _ _ Hi) as [n Hn].
  by exists b, i, n.
Qed.

Lemma at_node_not_end g c b : at_node g c → c ≠ end_ g b.
Proof.
  intros (b' & i & n & -> & Hn) [= -> ->].
  apply lookup_lt_Some in Hn. lia.
Qed.

Lemma at_node_begin g b : nodes_of g b ≠ [] → at_node g (begin_ b).
Proof.
  intros Hne. apply at_node_intro. destruct (nodes_of g b); simpl; [done | lia].
Qed.

Section WellFormed.
Context (g : Graph) (Hwf : well_formed g).

Lemma wf_block_valid b n :
  owner_node g b = Some n → is_Some (block_arena g !! b).
Proof. intros (blk & -> & _)%owner_node_Some. eauto. Qed.

Lemma wf_node_in_block n b :
  owner_block g n = Some b → n ∈ nodes_of g b.
Proof.
  intros Hb. pose proof Hb as (nd & Hnd%lookup_lt_Some & _)%owner_block_Some.
  destruct (wf_node_placed g Hwf n Hnd) as (b' & Hb' & Hin).
  by assert (b' = b) as -> by congruence.
Qed.

Lemma wf_lookup_node b i n :
  nodes_of g b !! i = Some n →
  ∃ nd, node_arena g !! n = Some nd ∧ owningBlock nd = Some b.
Proof.
  intros Hn. apply owner_block_Some, (wf_block_nodes g Hwf).
  by eapply list_elem_of_lookup_2.
Qed.

(** The owner of a block is an [If], a [Loop] or a [With], and the block is
    among its child blocks. *)
Lemma wf_owner_kind b n nd :
  owner_node g b = Some n → node_arena g !! n = Some nd →
  b ∈ blocks nd ∧
  match kind nd with
  | prim_If => ∃ t e, blocks nd = [t; e] ∧ t ≠ e
  | prim_Loop | prim_With => blocks nd = [b]
  | other_kind => False
  end.
Proof.
  intros Hb Hn. pose proof (wf_owner g Hwf b n Hb) as Hin.
  rewrite (blocks_of_lookup _ _ _ Hn) in Hin. split; [done|].
  destruct (wf_arity g Hwf n nd Hn) as [Har Hnd].
  destruct (kind nd), (blocks nd) as [|t [|e [|]]]; simpl in *; try done.
  - exists t, e. split; [done|]. intros ->.
    apply NoDup_cons in Hnd as [Hnd _]. apply Hnd. by left.
  - by apply list_elem_of_singleton in Hin as ->.
  - by apply list_elem_of_singleton in Hin as ->.
  - by apply elem_of_nil in Hin.
Qed.

Lemma wf_child_valid n nd c :
  node_arena g !! n = Some nd → c ∈ blocks nd →
  is_Some (block_arena g !! c).
Proof.
  intros Hn Hc. apply (wf_block_valid c n), (wf_children g Hwf).
  by rewrite (blocks_of_lookup _ _ _ Hn).
Qed.

(** Moving to the entry after position [i], which holds a node. *)
Lemma after_position b i :
  i < length (nodes_of g b) → at_end_after g b i = false →
  at_node g (it_at b (S i)).
Proof.
  rewrite at_end_after_spec. intros Hi Hne%bool_decide_eq_false.
  apply at_node_intro. lia.
Qed.

(** A climb in a well-formed graph completes and leaves the cursor on a
    node or exhausted. *)
Lemma move_up_fuel_ok fuel : ∀ from b,
  owner_block g from = Some b →
  reaches_root fuel g b = true →
  ∃ c, move_up_fuel fuel g from = Ok c ∧ cursor_ok g c.
Proof.
  induction fuel as [|fuel IH]; intros from b Hob Hreach; [done|].
  pose proof (wf_node_in_block _ _ Hob) as Hin.
  apply owner_block_Some in Hob as (nd & Hnd & Hnb).
  simpl in Hreach. destruct (block_arena g !! b) as [blk|] eqn:Hblk; [|done].
  simpl. unfold move_up_body, get_node, get_block. rewrite Hnd. simpl.
  rewrite Hnb, Hblk. simpl.
  destruct (owningNode blk) as [on|] eqn:Hon.
  - destruct (owner_block g on) as [b'|] eqn:Hob'; [|done].
    pose proof (wf_node_in_block _ _ Hob') as Hin'.
    pose proof Hob' as (ond & Hond & Honb)%owner_block_Some.
    rewrite Hond. simpl. rewrite Honb. simpl.
    destruct (block_arena g !! b') as [blk'|] eqn:Hblk'; simpl.
    2:{ apply nodes_of_elem_valid in Hin'.
        apply lookup_ge_None in Hblk'. lia. }
    unfold find_in.
    destruct (index_of_elem _ _ Hin') as [i Hi]. rewrite Hi. simpl.
    apply index_of_Some in Hi as [_ Hi].
    assert (∃ c,
      advance_or_up (move_up_fuel fuel g) g b' i on = Ok c ∧ cursor_ok g c)
      as Hnext.
    { unfold advance_or_up. destruct (at_end_after g b' i) eqn:Hend.
      - by apply (IH on b').
      - eexists. split; [done|]. right. by apply after_position. }
    assert (owner_node g b = Some on) as Hown.
    { apply owner_node_Some. eauto. }
    destruct (wf_owner_kind _ _ _ Hown Hond) as [Hbin Hkind].
    destruct (kind ond); [| done | done | done].
    destruct Hkind as (t & e & Hbs & Hne). rewrite Hbs. simpl.
    case_decide; [done|].
    destruct (wf_child_valid on ond e Hond) as [eb Heb].
    { rewrite Hbs. repeat constructor. }
    rewrite Heb. simpl. rewrite begin_is_end.
    case_bool_decide as Hempty; simpl; [done|].
    eexists. split; [done|]. right. by apply at_node_begin.
  - unfold find_in.
    destruct (index_of_elem _ _ Hin) as [i Hi]. rewrite Hi. simpl.
    apply index_of_Some in Hi as [_ Hi].
    destruct (at_end_after g b i) eqn:Hend.
    + eexists. split; [done|]. by left.
    + eexists. split; [done|]. right. by apply after_position.
Qed.

Lemma move_up_ok from :
  from < length (node_arena g) →
  ∃ c, move_up g from = Ok c ∧ cursor_ok g c.
Proof.
  intros Hfrom. destruct (wf_node_placed g Hwf from Hfrom) as (b & Hb & Hin).
  apply (move_up_fuel_ok _ from b Hb), (wf_acyclic g Hwf).
  by eapply nodes_of_elem_valid.
Qed.

(** One advance keeps the cursor on a node or exhausted. *)
Lemma move_next_ok c :
  cursor_ok g c → ∃ c', move_next g c = Ok c' ∧ cursor_ok g c'.
Proof.
  intros [-> | (b & i & n & -> & Hn)].
  { exists it_null. split; [done | by left]. }
  destruct (wf_lookup_node _ _ _ Hn) as (nd & Hnd & Hnb).
  unfold move_next. simpl. rewrite Hn. unfold get_node. rewrite Hnd. simpl.
  pose proof (wf_arity g Hwf n nd Hnd) as [Har _].
  assert (∀ c, c ∈ blocks nd → ∃ blk, get_block g c = Ok blk) as Hchild.
  { intros c Hc. destruct (wf_child_valid n nd c Hnd Hc) as [blk Hblk].
    exists blk. unfold get_block. by rewrite Hblk. }
  assert (∃ c', move_up g n = Ok c' ∧ cursor_ok g c') as Hup.
  { apply move_up_ok. by eapply lookup_lt_Some. }
  destruct (kind nd), (blocks nd) as [|t [|e [|]]] eqn:Hbs;
    simpl in Har; try done; simpl.
  - destruct (Hchild t) as [? ->]; [repeat constructor|].
    destruct (Hchild e) as [? ->]; [repeat constructor|]. simpl.
    rewrite !begin_is_end.
    case_bool_decide; simpl.
    + case_bool_decide; simpl; [done|].
      eexists. split; [done|]. right. by apply at_node_begin.
    + eexists. split; [done|]. right. by apply at_node_begin.
  - destruct (Hchild t) as [? ->]; [repeat constructor|]. simpl.
    rewrite begin_is_end. case_bool_decide; simpl.
    + eexists. split; [done|]. right. by exists b, i, n.
    + eexists. split; [done|]. right. by apply at_node_begin.
  - destruct (Hchild t) as [? ->]; [repeat constructor|]. simpl.
    rewrite begin_is_end. case_bool_decide; simpl.
    + eexists. split; [done|]. right. by exists b, i, n.
    + eexists. split; [done|]. right. by apply at_node_begin.
  - rewrite Hnb. simpl. unfold get_block.
    destruct (block_arena g !! b) as [blk|] eqn:Hblk; simpl.
    2:{ apply list_elem_of_lookup_2, nodes_of_elem_valid in Hn.
        apply lookup_ge_None in Hblk. lia. }
    fold (at_end_after g b i).
    destruct (at_end_after g b i) eqn:Hend; [done|].
    eexists. split; [done|]. right.
    apply after_position; [|done]. by eapply lookup_lt_Some.
Qed.

Lemma next_ok c :
  cursor_ok g c →
  ∃ c', next g c = Ok (deref g c, c') ∧ cursor_ok g c'.
Proof.
  intros Hc. destruct (move_next_ok c Hc) as (c' & Hc' & Hok).
  exists c'. unfold next. by rewrite Hc'.
Qed.

Lemma nexts_ok k : ∀ c,
  cursor_ok g c →
  ∃ rs c', nexts k g c = Ok (rs, c') ∧ cursor_ok g c'.
Proof.
  induction k as [|k IH]; intros c Hc; simpl.
  - by exists [], c.
  - destruct (next_ok c Hc) as (c1 & -> & Hc1). simpl.
    destruct (IH c1 Hc1) as (rs & c2 & -> & Hc2). simpl. eauto.
Qed.

End WellFormed.

(** ** Sequences of calls *)

Lemma nexts_S k g c :
  nexts (S k) g c =
  '(r, c') ← next g c; '(rs, c'') ← nexts k g c'; Ok (r :: rs, c'').
Proof. done. Qed.

Lemma nexts_app j : ∀ k g c rs c',
  nexts j g c = Ok (rs, c') →
  nexts (j + k) g c = '(rs', c'') ← nexts k g c'; Ok (rs ++ rs', c'').
Proof.
  induction j as [|j IH]; intros k g c rs c' Hj; simpl in *.
  - injection Hj as <- <-. by destruct (nexts k g c) as [[??]|].
  - destruct (next g c) as [[r c1]|]; simpl in *; [|done].
    destruct (nexts j g c1) as [[rs1 c2]|] eqn:H1; simpl in *; [|done].
    injection Hj as <- <-. rewrite (IH k g c1 rs1 c2 H1).
    by destruct (nexts k g c2) as [[??]|].
Qed.

(** A call that leaves the cursor where it was is repeated by every later
    call. *)
Lemma next_fixed_forever g c r :
  next g c = Ok (r, c) → ∀ k, nexts k g c = Ok (replicate k r, c).
Proof.
  intros Hn. induction k as [|k IH]; simpl; [done|].
  rewrite Hn. simpl. by rewrite IH.
Qed.

Lemma next_null g : next g it_null = Ok (nullptr, it_null).
Proof. done. Qed.

(** [next()] returns the null pointer only from the default-constructed
    iterator, and stays there. *)
Lemma next_returns_null g c c' :
  next g c = Ok (nullptr, c') → c = it_null ∧ c' = it_null.
Proof.
  unfold next. destruct (move_next g c) as [c1|] eqn:Hmv; simpl; [|done].
  intros [= Hd <-]. apply deref_null in Hd as ->. split; [done|].
  by injection Hmv as <-.
Qed.

(** On a [Loop] or [With] node whose body is empty, [move_next] leaves
    [current_] as it is. *)
Lemma region_empty_body_stays g c n nd body bs :
  deref g c = node_ptr n →
  node_arena g !! n = Some nd →
  kind nd = prim_Loop ∨ kind nd = prim_With →
  blocks nd = body :: bs →
  is_Some (block_arena g !! body) →
  nodes_of g body = [] →
  next g c = Ok (node_ptr n, c).
Proof.
  intros Hd Hnd Hk Hbs [blk Hblk] Hempty.
  destruct c as [|b i]; [done|].
  unfold next, move_next. rewrite Hd.
  unfold get_node, get_block. rewrite Hnd. simpl.
  destruct Hk as [-> | ->]; rewrite Hbs; simpl; rewrite Hblk; simpl;
    rewrite begin_is_end, bool_decide_eq_true_2 by done; done.
Qed.

Lemma nexts_snoc k : ∀ g c,
  nexts (S k) g c =
  '(rs, c1) ← nexts k g c; '(r, c2) ← next g c1; Ok (rs ++ [r], c2).
Proof.
  induction k as [|k IH]; intros g c.
  - simpl. destruct (next g c) as [[??]|]; done.
  - rewrite (nexts_S (S k)), (nexts_S k g c).
    destruct (next g c) as [[r c1]|]; [|done].
    cbv beta iota delta [mbind outcome_bind]. rewrite IH.
    destruct (nexts k g c1) as [[rs c2]|]; simpl; [|done].
    destruct (next g c2) as [[??]|]; done.
Qed.

Lemma emits_nil g c : emits g c [] c.
Proof. done. Qed.

Lemma emits_cons g c n c1 ns c2 :
  next g c = Ok (node_ptr n, c1) → emits g c1 ns c2 → emits g c (n :: ns) c2.
Proof.
  unfold emits. intros Hn Hns. simpl. rewrite Hn. simpl. by rewrite Hns.
Qed.

Lemma emits_app g c ns1 c1 ns2 c2 :
  emits g c ns1 c1 → emits g c1 ns2 c2 → emits g c (ns1 ++ ns2) c2.
Proof.
  unfold emits. intros H1 H2.
  rewrite length_app, (nexts_app _ _ _ _ _ _ H1), H2. simpl.
  by rewrite fmap_app.
Qed.

Lemma preorder_block_empty f g b : nodes_of g b = [] → preorder_block f g b = [].
Proof. intros H. destruct f; simpl; [done|]. by rewrite H. Qed.

(** The climb from a block whose owner has another kind throws. *)
Lemma move_up_bad_owner g from b on ond b' :
  owner_block g from = Some b →
  owner_node g b = Some on →
  node_arena g !! on = Some ond →
  owningBlock ond = Some b' →
  on ∈ nodes_of g b' →
  kind ond = other_kind →
  move_up g from = Err (runtime_error no_child_blocks_msg).
Proof.
  intros Hfrom Hb Hond Hb' Hin Hkind.
  apply owner_block_Some in Hfrom as (nd & Hnd & Hnb).
  apply owner_node_Some in Hb as (blk & Hblk & Hon).
  unfold move_up.
  destruct (length (block_arena g)) as [|fuel] eqn:Hlen.
  { apply lookup_lt_Some in Hblk. lia. }
  simpl. unfold move_up_body, get_node, get_block, find_in.
  rewrite Hnd. simpl. rewrite Hnb, Hblk. simpl. rewrite Hon, Hond. simpl.
  rewrite Hb'. simpl.
  destruct (block_arena g !! b') eqn:Hblk'; simpl.
  2:{ apply nodes_of_elem_valid in Hin. apply lookup_ge_None in Hblk'. lia. }
  destruct (index_of_elem _ _ Hin) as [i ->]. simpl. by rewrite Hkind.
Qed.

(** ** The climb never throws in a well-formed graph *)

Section NoThrow.
Context (g : Graph) (Hwf : well_formed g).

Lemma move_up_fuel_no_throw fuel : ∀ from msg,
  move_up_fuel fuel g from ≠ Err (runtime_error msg).
Proof.
  induction fuel as [|fuel IH]; intros from msg; simpl; [done|].
  unfold move_up_body, get_node, get_block, find_in.
  destruct (node_arena g !! from) as [nd|]; simpl; [|done].
  destruct (owningBlock nd) as [b|]; [|done].
  destruct (block_arena g !! b) as [blk|] eqn:Hblk; simpl; [|done].
  destruct (owningNode blk) as [on|] eqn:Hon.
  2:{ destruct (index_of from (nodes_of g b)); simpl; [|done].
      by destruct (at_end_after g b n). }
  destruct (node_arena g !! on) as [ond|] eqn:Hond; simpl; [|done].
  destruct (owningBlock ond) as [b'|]; simpl; [|done].
  destruct (block_arena g !! b'); simpl; [|done].
  destruct (index_of on (nodes_of g b')) as [i|]; simpl; [|done].
  assert (advance_or_up (move_up_fuel fuel g) g b' i on
          ≠ Err (runtime_error msg)) as Hnext.
  { unfold advance_or_up. destruct (at_end_after g b' i); [apply IH | done]. }
  assert (owner_node g b = Some on) as Hown.
  { apply owner_node_Some. eauto. }
  destruct (wf_owner_kind g Hwf _ _ _ Hown Hond) as [_ Hkind].
  destruct (kind ond); [| done | done | done].
  destruct Hkind as (t & e & -> & _). simpl.
  case_decide; [done|].
  destruct (block_arena g !! e); simpl; [|done].
  by destruct (negb _).
Qed.

Lemma move_next_no_throw c msg :
  move_next g c ≠ Err (runtime_error msg).
Proof.
  unfold move_next. destruct c as [|b i]; [done|]. simpl.
  destruct (nodes_of g b !! i) as [n|]; [|done].
  unfold get_node, get_block, at_.
  destruct (node_arena g !! n) as [nd|]; simpl; [|done].
  pose proof (move_up_fuel_no_throw (length (block_arena g)) n msg) as Hup.
  fold (move_up g n) in Hup.
  destruct (kind nd).
  - destruct (blocks nd !! 0) as [t|]; simpl; [|done].
    destruct (blocks nd !! 1) as [e|]; simpl; [|done].
    destruct (block_arena g !! t); simpl; [|done].
    destruct (block_arena g !! e); simpl; [|done].
    destruct (negb _); [done|]. by destruct (negb _).
  - destruct (blocks nd !! 0) as [t|]; simpl; [|done].
    destruct (block_arena g !! t); simpl; [|done].
    by destruct (negb _).
  - destruct (blocks nd !! 0) as [t|]; simpl; [|done].
    destruct (block_arena g !! t); simpl; [|done].
    by destruct (negb _).
  - destruct (owningBlock nd) as [b'|]; simpl; [|done].
    destruct (block_arena g !! b'); simpl; [|done].
    by case_bool_decide.
Qed.

Lemma nexts_no_throw k : ∀ c msg,
  nexts k g c ≠ Err (runtime_error msg).
Proof.
  induction k as [|k IH]; intros c msg; simpl; [done|].
  unfold next. pose proof (move_next_no_throw c msg) as Hmv.
  destruct (move_next g c) as [c'|e]; simpl; [|congruence].
  specialize (IH c' msg). destruct (nexts k g c') as [[??]|e]; simpl;
    congruence.
Qed.

End NoThrow.

(** ** The climb, one level at a time *)

Lemma move_up_body_mono
    (rec rec' : node_id → outcome graph_node_list_iterator) g from c :
  (∀ n c, rec n = Ok c → rec' n = Ok c) →
  move_up_body rec g from = Ok c → move_up_body rec' g from = Ok c.
Proof.
  intros Hrec. unfold move_up_body, advance_or_up, mbind, outcome_bind.
  repeat case_match; eauto.
Qed.

Lemma move_up_fuel_mono g f : ∀ n c,
  move_up_fuel f g n = Ok c → move_up_fuel (S f) g n = Ok c.
Proof.
  induction f as [|f IH]; intros n c; [done|].
  intros H. simpl in *. by eapply move_up_body_mono.
Qed.

Section Climb.
Context (g : Graph) (Hwf : well_formed g).

Lemma move_up_unfold n :
  n < length (node_arena g) →
  move_up g n = move_up_body (move_up g) g n.
Proof.
  intros Hn. destruct (move_up_ok g Hwf n Hn) as (c & Hc & _).
  rewrite Hc. symmetry. unfold move_up in *.
  destruct (length (block_arena g)) as [|f]; [done|].
  simpl in Hc. eapply move_up_body_mono; [|exact Hc].
  apply move_up_fuel_mono.
Qed.
End Climb.

(** ** Graphs the traversal handles *)

Lemma region_bodies_spec g n nd c :
  region_bodies_nonempty g →
  node_arena g !! n = Some nd →
  kind nd = prim_Loop ∨ kind nd = prim_With →
  c ∈ blocks nd → nodes_of g c ≠ [].
Proof.
  unfold region_bodies_nonempty. rewrite Forall_forall.
  intros H Hnd Hk Hc. specialize (H nd (list_elem_of_lookup_2 _ _ _ Hnd) Hk).
  rewrite Forall_forall in H. by apply H.
Qed.

Lemma empty_ifs_spec g b i n nd :
  empty_ifs_last g →
  nodes_of g b !! i = Some n →
  node_arena g !! n = Some nd →
  kind nd = prim_If →
  (∀ c, c ∈ blocks nd → nodes_of g c = []) →
  b = block g ∨ S i = length (nodes_of g b).
Proof.
  unfold empty_ifs_last, block_ids. rewrite Forall_forall.
  intros H Hn Hnd Hk Hempty.
  destruct (decide (b = block g)) as [|Hb]; [by left | right].
  pose proof (lookup_lt_Some _ _ _ Hn) as Hi.
  destruct (decide (S i = length (nodes_of g b))) as [|Hlast]; [done|].
  exfalso.
  assert (b ∈ seq 0 (length (block_arena g))) as Hbin.
  { apply elem_of_seq. apply list_elem_of_lookup_2, nodes_of_elem_valid in Hn. lia. }
  specialize (H b Hbin Hb). rewrite Forall_forall in H.
  apply (H n).
  - apply list_elem_of_lookup. exists i. rewrite lookup_take_lt by lia. done.
  - split.
    + unfold kind_of. by rewrite Hnd, <- Hk.
    + rewrite (blocks_of_lookup _ _ _ Hnd). by apply Forall_forall.
Qed.

(** ** Single steps in a well-formed graph *)

Section Steps.
Context (g : Graph) (Hwf : well_formed g).

Lemma wf_find_in b i n :
  nodes_of g b !! i = Some n → find_in g b n = Ok i.
Proof.
  intros Hn. unfold find_in.
  by rewrite (index_of_lookup n _ i (wf_nodes_nodup g Hwf b) Hn).
Qed.

Lemma wf_get_block_of_node b i n :
  nodes_of g b !! i = Some n → ∃ blk, block_arena g !! b = Some blk.
Proof.
  intros Hn%list_elem_of_lookup_2%nodes_of_elem_valid.
  by apply lookup_lt_is_Some_2 in Hn as [blk ?]; eauto.
Qed.

(** The climb from a node of the root block. *)
Lemma move_up_root i n :
  nodes_of g (block g) !! i = Some n →
  move_up g n =
    if at_end_after g (block g) i then Ok it_null
    else Ok (it_at (block g) (S i)).
Proof.
  intros Hn. destruct (wf_lookup_node g Hwf _ _ _ Hn) as (nd & Hnd & Hnb).
  rewrite move_up_unfold by (done || by eapply lookup_lt_Some).
  unfold move_up_body, get_node, get_block. rewrite Hnd. simpl. rewrite Hnb.
  destruct (wf_root g Hwf) as [_ Hroot].
  unfold owner_node in Hroot.
  destruct (block_arena g !! block g) as [blk|] eqn:Hblk; simpl in *.
  2:{ destruct (wf_get_block_of_node _ _ _ Hn). congruence. }
  rewrite Hroot. by rewrite (wf_find_in _ _ _ Hn).
Qed.

(** The climb from a node of a child block [c] of the node [on], which
    stands at position [i] of block [b]. *)
Lemma move_up_child n c on ond b i :
  owner_block g n = Some c →
  owner_node g c = Some on →
  node_arena g !! on = Some ond →
  nodes_of g b !! i = Some on →
  move_up g n = after_child g c on ond b i.
Proof.
  intros Hnc Hc Hond Hon.
  pose proof Hnc as (nd & Hnd & Hnb)%owner_block_Some.
  pose proof Hc as (blk & Hblk & Hbo)%owner_node_Some.
  destruct (wf_lookup_node g Hwf _ _ _ Hon) as (ond' & Hond' & Honb).
  assert (ond' = ond) as -> by congruence.
  destruct (wf_get_block_of_node _ _ _ Hon) as [bblk Hbblk].
  rewrite move_up_unfold by (done || by eapply lookup_lt_Some).
  unfold after_child, move_up_body, get_node, get_block. rewrite Hnd. simpl.
  rewrite Hnb, Hblk. simpl. rewrite Hbo, Hond. simpl. rewrite Honb. simpl.
  rewrite Hbblk. simpl. rewrite (wf_find_in _ _ _ Hon). simpl.
  destruct (wf_owner_kind g Hwf _ _ _ Hc Hond) as [Hin Hkind].
  destruct (kind ond); try done.
  - destruct Hkind as (t & e & Hbs & Hne). rewrite Hbs. simpl.
    destruct (wf_child_valid g Hwf on ond e Hond) as [eb Heb].
    { rewrite Hbs. repeat constructor. }
    rewrite Heb. simpl. rewrite begin_is_end.
    case_decide; [done|]. by case_bool_decide.
  - by rewrite Hkind.
  - by rewrite Hkind.
Qed.

(** When the then-block of an [If] node is exhausted and the else-block has
    a node, the cursor goes to the first node of the else-block. *)
Lemma then_block_exit b i n nd t e :
  nodes_of g b !! i = Some n →
  node_arena g !! n = Some nd →
  kind nd = prim_If →
  blocks nd = [t; e] →
  nodes_of g t ≠ [] → nodes_of g e ≠ [] →
  block_exit g t = Ok (begin_ e).
Proof.
  intros Hn Hnd Hk Hbs Ht He. unfold block_exit.
  destruct (last (nodes_of g t)) as [nl|] eqn:Hl.
  2:{ by apply last_None in Hl. }
  assert (owner_node g t = Some n) as Hown.
  { apply (wf_children g Hwf). rewrite (blocks_of_lookup _ _ _ Hnd), Hbs.
    by left. }
  rewrite (move_up_child nl t n nd b i); try done.
  - unfold after_child. rewrite Hk, Hbs.
    destruct (wf_arity g Hwf n nd Hnd) as [_ Hnodup]. rewrite Hbs in Hnodup.
    apply NoDup_cons in Hnodup as [Hnotin _].
    rewrite decide_False; [by rewrite bool_decide_eq_false_2|].
    intros ->. apply Hnotin. by left.
  - apply (wf_block_nodes g Hwf). by apply last_Some_elem_of.
Qed.

Lemma next_plain b i n nd :
  nodes_of g b !! i = Some n →
  node_arena g !! n = Some nd →
  kind nd = other_kind →
  next g (it_at b i) =
    c' ← advance_or_up (move_up g) g b i n; Ok (node_ptr n, c').
Proof.
  intros Hn Hnd Hk.
  destruct (wf_lookup_node g Hwf _ _ _ Hn) as (nd' & Hnd' & Hnb).
  assert (nd' = nd) as -> by congruence.
  destruct (wf_get_block_of_node _ _ _ Hn) as [blk Hblk].
  unfold next, move_next. simpl. rewrite Hn.
  unfold get_node, get_block. rewrite Hnd. simpl. rewrite Hk, Hnb. simpl.
  by rewrite Hblk.
Qed.

Lemma next_region b i n nd :
  nodes_of g b !! i = Some n →
  node_arena g !! n = Some nd →
  kind nd = prim_Loop ∨ kind nd = prim_With →
  ∃ c, blocks nd = [c] ∧
    next g (it_at b i) =
      Ok (node_ptr n,
          if bool_decide (nodes_of g c = []) then it_at b i else begin_ c).
Proof.
  intros Hn Hnd Hk.
  destruct (wf_arity g Hwf n nd Hnd) as [Har _].
  assert (∃ c, blocks nd = [c]) as [c Hbs].
  { destruct Hk as [Hk|Hk]; rewrite Hk in Har;
      destruct (blocks nd) as [|c [|]]; try done; eauto. }
  exists c. split; [done|].
  destruct (wf_child_valid g Hwf n nd c Hnd) as [cb Hcb].
  { rewrite Hbs. repeat constructor. }
  unfold next, move_next. simpl. rewrite Hn.
  unfold get_node, get_block. rewrite Hnd. simpl.
  destruct Hk as [-> | ->]; rewrite Hbs; simpl; rewrite Hcb; simpl;
    rewrite begin_is_end; by case_bool_decide.
Qed.

Lemma next_if b i n nd :
  nodes_of g b !! i = Some n →
  node_arena g !! n = Some nd →
  kind nd = prim_If →
  ∃ t e, blocks nd = [t; e] ∧
    next g (it_at b i) =
      if negb (bool_decide (nodes_of g t = [])) then Ok (node_ptr n, begin_ t)
      else if negb (bool_decide (nodes_of g e = [])) then Ok (node_ptr n, begin_ e)
      else c' ← move_up g n; Ok (node_ptr n, c').
Proof.
  intros Hn Hnd Hk.
  destruct (wf_arity g Hwf n nd Hnd) as [Har _]. rewrite Hk in Har.
  destruct (blocks nd) as [|t [|e [|]]] eqn:Hbs; try done.
  exists t, e. split; [done|].
  destruct (wf_child_valid g Hwf n nd t Hnd) as [tb Htb].
  { rewrite Hbs. repeat constructor. }
  destruct (wf_child_valid g Hwf n nd e Hnd) as [eb Heb].
  { rewrite Hbs. repeat constructor. }
  unfold next, move_next. simpl. rewrite Hn.
  unfold get_node, get_block. rewrite Hnd. simpl. rewrite Hk, Hbs. simpl.
  rewrite Htb, Heb. simpl. rewrite !begin_is_end.
  destruct (negb _); [done|]. by destruct (negb _).
Qed.

End Steps.

(** ** The order of the traversal *)

Section Traverse.
Context (g : Graph) (Hwf : well_formed g).
Context (Hregion : region_bodies_nonempty g) (Hifs : empty_ifs_last g).

Lemma reaches_root_child c n b d :
  owner_node g c = Some n → owner_block g n = Some b →
  reaches_root (S d) g c = reaches_root d g b.
Proof.
  intros (blk & Hblk & Hon)%owner_node_Some Hnb. simpl.
  by rewrite Hblk, Hon, Hnb.
Qed.

Lemma block_exit_last b n :
  last (nodes_of g b) = Some n →
  block_exit g b = advance_or_up (move_up g) g b (pred (length (nodes_of g b))) n.
Proof.
  intros Hl. unfold block_exit, advance_or_up. rewrite Hl.
  rewrite at_end_after_spec, bool_decide_eq_true_2; [done|].
  apply last_Some in Hl as [l' ->]. rewrite length_app. simpl. lia.
Qed.

Lemma traverse_child f b d i n nd c k :
  traverses_block g f →
  d + S f = length (block_arena g) →
  reaches_root d g b = false →
  nodes_of g b !! i = Some n →
  node_arena g !! n = Some nd →
  c ∈ blocks nd →
  nodes_of g c ≠ [] →
  after_child g c n nd b i = Ok k →
  emits g (begin_ c) (preorder_block f g c) k.
Proof.
  intros TB Hd Hreach Hn Hnd Hc Hne Hk.
  assert (owner_node g c = Some n) as Hown.
  { apply (wf_children g Hwf). by rewrite (blocks_of_lookup _ _ _ Hnd). }
  assert (owner_block g n = Some b) as Hnb.
  { apply (wf_block_nodes g Hwf). by eapply list_elem_of_lookup_2. }
  apply (TB c (S d)); [lia | by rewrite (reaches_root_child c n b) | done |].
  unfold block_exit.
  destruct (last (nodes_of g c)) as [nl|] eqn:Hl.
  2:{ by apply last_None in Hl. }
  rewrite <- Hk. apply move_up_child; try done.
  apply (wf_block_nodes g Hwf). by apply last_Some_elem_of.
Qed.

Lemma traverse_node f : traverses_block g f → traverses_node g f.
Proof.
  intros TB b d i n k Hd Hreach Hn Hk.
  destruct (wf_lookup_node g Hwf _ _ _ Hn) as (nd & Hnd & Hnb).
  pose proof (traverse_child f b d i n nd) as Hchild.
  unfold subtree. rewrite (blocks_of_lookup _ _ _ Hnd).
  destruct (kind nd) eqn:Hkind.
  - destruct (next_if g Hwf b i n nd Hn Hnd Hkind) as (t & e & Hbs & Hnext).
    rewrite Hbs. simpl. rewrite app_nil_r.
    assert (t ≠ e) as Hte.
    { destruct (wf_arity g Hwf n nd Hnd) as [_ Hnodup]. rewrite Hbs in Hnodup.
      apply NoDup_cons in Hnodup as [Hnotin _]. intros ->. apply Hnotin. by left. }
    assert (after_child g e n nd b i = Ok k) as Hafter_e.
    { unfold after_child. rewrite Hkind, Hbs. by rewrite decide_True. }
    destruct (decide (nodes_of g t = [])) as [Ht|Ht];
      destruct (decide (nodes_of g e = [])) as [He|He].
    + rewrite !preorder_block_empty by done. simpl.
      rewrite !bool_decide_eq_true_2 in Hnext by done. simpl in Hnext.
      assert (move_up g n = Ok k) as Hup.
      { destruct (empty_ifs_spec g b i n nd Hifs Hn Hnd Hkind) as [-> | Hlast].
        - intros c. rewrite Hbs. intros [->|[->|?%elem_of_nil]%elem_of_cons]%elem_of_cons; done.
        - rewrite (move_up_root g Hwf i n Hn). unfold advance_or_up in Hk.
          destruct (at_end_after g (block g) i) eqn:Hend; [|done].
          by rewrite (move_up_root g Hwf i n Hn), Hend in Hk.
        - unfold advance_or_up in Hk.
          by rewrite at_end_after_spec, bool_decide_eq_true_2 in Hk. }
      rewrite Hup in Hnext. eapply emits_cons; [exact Hnext | apply emits_nil].
    + rewrite (preorder_block_empty f g t) by done. simpl.
      rewrite bool_decide_eq_true_2, bool_decide_eq_false_2 in Hnext by done.
      eapply emits_cons; [exact Hnext|].
      apply (Hchild e k); try done. rewrite Hbs. repeat constructor.
    + rewrite (preorder_block_empty f g e) by done. rewrite app_nil_r.
      rewrite bool_decide_eq_false_2 in Hnext by done.
      eapply emits_cons; [exact Hnext|].
      apply (Hchild t k); try done; [rewrite Hbs; repeat constructor|].
      unfold after_child. rewrite Hkind, Hbs. rewrite decide_False by done.
      by rewrite bool_decide_eq_true_2.
    + rewrite bool_decide_eq_false_2 in Hnext by done.
      eapply emits_cons; [exact Hnext|].
      eapply emits_app.
      * apply (Hchild t (begin_ e)); try done; [rewrite Hbs; repeat constructor|].
        unfold after_child. rewrite Hkind, Hbs. rewrite decide_False by done.
        by rewrite bool_decide_eq_false_2.
      * apply (Hchild e k); try done. rewrite Hbs. repeat constructor.
  - destruct (next_region g Hwf b i n nd Hn Hnd) as (c & Hbs & Hnext); [by left|].
    rewrite Hbs. simpl. rewrite app_nil_r.
    assert (nodes_of g c ≠ []) as Hc.
    { apply (region_bodies_spec g n nd c Hregion Hnd); [by left|]. rewrite Hbs. repeat constructor. }
    rewrite bool_decide_eq_false_2 in Hnext by done.
    eapply emits_cons; [exact Hnext|].
    apply (Hchild c k); try done; [rewrite Hbs; repeat constructor|].
    unfold after_child. by rewrite Hkind, Hbs.
  - destruct (next_region g Hwf b i n nd Hn Hnd) as (c & Hbs & Hnext); [by right|].
    rewrite Hbs. simpl. rewrite app_nil_r.
    assert (nodes_of g c ≠ []) as Hc.
    { apply (region_bodies_spec g n nd c Hregion Hnd); [by right|]. rewrite Hbs. repeat constructor. }
    rewrite bool_decide_eq_false_2 in Hnext by done.
    eapply emits_cons; [exact Hnext|].
    apply (Hchild c k); try done; [rewrite Hbs; repeat constructor|].
    unfold after_child. by rewrite Hkind, Hbs.
  - destruct (wf_arity g Hwf n nd Hnd) as [Har _]. rewrite Hkind in Har.
    destruct (blocks nd); [|done]. simpl.
    eapply emits_cons; [|apply emits_nil].
    rewrite (next_plain g Hwf b i n nd Hn Hnd Hkind). by rewrite Hk.
Qed.

Lemma traverse_suffix f b d k :
  traverses_node g f →
  d + S f = length (block_arena g) →
  reaches_root d g b = false →
  block_exit g b = Ok k →
  ∀ m i, i + S m = length (nodes_of g b) →
    emits g (it_at b i) (drop i (nodes_of g b) ≫= subtree f g) k.
Proof.
  intros TN Hd Hreach Hexit. induction m as [|m IH]; intros i Hi.
  - destruct (lookup_lt_is_Some_2 (nodes_of g b) i) as [n Hn]; [lia|].
    rewrite (drop_S _ _ _ Hn), drop_ge by lia. rewrite bind_singleton.
    apply (TN b d i n k Hd Hreach Hn).
    rewrite <- Hexit.
    assert (i = pred (length (nodes_of g b))) as -> by lia.
    symmetry. apply block_exit_last. by rewrite last_lookup.
  - destruct (lookup_lt_is_Some_2 (nodes_of g b) i) as [n Hn]; [lia|].
    rewrite (drop_S _ _ _ Hn), bind_cons.
    eapply emits_app; [|apply IH; lia].
    apply (TN b d i n _ Hd Hreach Hn).
    unfold advance_or_up.
    rewrite at_end_after_spec, bool_decide_eq_false_2 by lia. done.
Qed.

Lemma traverse_block f : traverses_block g f.
Proof.
  induction f as [|f IH]; intros c d k Hd Hreach Hne Hexit.
  - assert (c < length (block_arena g)) as Hc.
    { destruct (nodes_of g c) as [|n l] eqn:Hl; [done|].
      apply (nodes_of_elem_valid g c n). rewrite Hl. by left. }
    replace d with (length (block_arena g)) in Hreach by lia.
    by rewrite (wf_acyclic g Hwf c Hc) in Hreach.
  - change (preorder_block (S f) g c) with (nodes_of g c ≫= subtree f g).
    rewrite <- (drop_0 (nodes_of g c)).
    apply (traverse_suffix f c d k (traverse_node f IH) Hd Hreach Hexit
             (pred (length (nodes_of g c))) 0).
    destruct (nodes_of g c); simpl; [done | lia].
Qed.

(** On a well-formed graph with a node in its root block, with no empty
    [Loop] or [With] body and no [If] with two empty blocks before the end of
    a nested block, the calls of [next()] return the pre-order listing of the
    nodes and then the null pointer. *)
Theorem traversal_is_preorder :
  nodes_of g (block g) ≠ [] →
  nexts (S (length (preorder g))) g (DepthFirstGraphNodeIterator g) =
    Ok ((node_ptr <$> preorder g) ++ [nullptr], it_null).
Proof.
  intros Hroot.
  assert (emits g (begin_ (block g)) (preorder g) it_null) as Hemit.
  { apply (traverse_block _ (block g) 0); [done | done | done |].
    unfold block_exit. rewrite last_lookup.
    destruct (lookup_lt_is_Some_2 (nodes_of g (block g))
                (pred (length (nodes_of g (block g))))) as [n Hn].
    { destruct (nodes_of g (block g)); simpl; [done | lia]. }
    rewrite Hn, (move_up_root g Hwf _ _ Hn).
    rewrite at_end_after_spec, bool_decide_eq_true_2; [done|].
    destruct (nodes_of g (block g)); simpl; [done | lia]. }
  rewrite nexts_snoc. unfold DepthFirstGraphNodeIterator.
  unfold emits in Hemit. rewrite Hemit. done.
Qed.

End Traverse.

(** ** The pre-order listing holds every node once *)

Lemma up_n_snoc g j : ∀ b c b',
  up_n j g b = Some c → up g c = Some b' → up_n (S j) g b = Some b'.
Proof.
  induction j as [|j IH]; intros b c b'; simpl.
  - intros [= ->] ->. done.
  - destruct (up g b) as [b1|]; simpl; [|done].
    intros Hj Hc. by apply (IH b1 c b').
Qed.

Lemma up_n_add g j : ∀ k b, up_n (j + k) g b = up_n j g b ≫= up_n k g.
Proof.
  induction j as [|j IH]; intros k b; simpl; [done|].
  destruct (up g b); simpl; [apply IH | done].
Qed.

Lemma reaches_root_up g d b b' :
  up g b = Some b' → reaches_root (S d) g b = reaches_root d g b'.
Proof.
  unfold up. destruct (owner_node g b) as [n|] eqn:Hn; simpl; [|done].
  apply owner_node_Some in Hn as (blk & Hblk & Hon). intros Hb'.
  by rewrite Hblk, Hon, Hb'.
Qed.

Lemma reaches_root_up_n g j : ∀ d b b',
  up_n j g b = Some b' → reaches_root d g b = true →
  j < d ∧ reaches_root (d - j) g b' = true.
Proof.
  induction j as [|j IH]; intros d b b'; simpl.
  - intros [= ->] Hd. destruct d; [done|]. split; [lia|]. by rewrite Nat.sub_0_r.
  - destruct (up g b) as [b1|] eqn:Hup; simpl; [|done].
    intros Hj Hd. destruct d; [done|].
    rewrite (reaches_root_up g d b b1 Hup) in Hd.
    destruct (IH d b1 b' Hj Hd). split; [lia | done].
Qed.

(** No block is above itself. *)
Lemma up_n_acyclic g j d : ∀ b,
  reaches_root d g b = true → up_n (S j) g b ≠ Some b.
Proof.
  induction (lt_wf d) as [d _ IH]. intros b Hd Hcyc.
  destruct (reaches_root_up_n g (S j) d b b Hcyc Hd) as [Hlt Hd'].
  apply (IH (d - S j)) with b; [lia | done | done].
Qed.

Section Listing.
Context (g : Graph) (Hwf : well_formed g).

Lemma wf_up_child c n b :
  c ∈ blocks_of g n → n ∈ nodes_of g b → up g c = Some b.
Proof.
  intros Hc Hn. unfold up.
  rewrite (wf_children g Hwf n c Hc). simpl.
  by apply (wf_block_nodes g Hwf).
Qed.

Lemma wf_up_valid b b' : up g b = Some b' → b' < length (block_arena g).
Proof.
  unfold up. destruct (owner_node g b) as [n|]; simpl; [|done].
  intros Hn. by apply (nodes_of_elem_valid g b' n), wf_node_in_block.
Qed.

Lemma wf_no_cycle j b b' : up g b = Some b' → up_n (S j) g b' ≠ Some b'.
Proof.
  intros Hup. eapply up_n_acyclic, (wf_acyclic g Hwf). by eapply wf_up_valid.
Qed.

(** Two blocks above the same block with the same block above them are one
    block. *)
Lemma up_n_same_parent_le bm j k c1 c2 b :
  up_n j g bm = Some c1 → up_n (j + k) g bm = Some c2 →
  up g c1 = Some b → up g c2 = Some b → c1 = c2.
Proof.
  intros H1 H2 Hc1 Hc2. rewrite up_n_add, H1 in H2. simpl in H2.
  destruct k as [|k]; [by injection H2|]. exfalso.
  simpl in H2. rewrite Hc1 in H2. simpl in H2.
  apply (wf_no_cycle k c1 b Hc1). by eapply up_n_snoc.
Qed.

Lemma up_n_same_parent bm j1 j2 c1 c2 b :
  up_n j1 g bm = Some c1 → up_n j2 g bm = Some c2 →
  up g c1 = Some b → up g c2 = Some b → c1 = c2.
Proof.
  intros H1 H2 Hc1 Hc2. destruct (decide (j1 ≤ j2)) as [Hle|Hle].
  - replace j2 with (j1 + (j2 - j1)) in H2 by lia.
    by eapply up_n_same_parent_le.
  - replace j1 with (j2 + (j1 - j2)) in H1 by lia.
    symmetry. by eapply up_n_same_parent_le.
Qed.

(** A node listed under block [b] sits in a block at or below [b]. *)
Lemma preorder_block_up f : ∀ b m,
  m ∈ preorder_block f g b →
  ∃ bm j, owner_block g m = Some bm ∧ up_n j g bm = Some b.
Proof.
  induction f as [|f IH]; intros b m; simpl; [by intros ?%elem_of_nil|].
  intros (n & Hm & Hn)%list_elem_of_bind.
  apply elem_of_cons in Hm as [-> | (c & Hm & Hc)%list_elem_of_bind].
  - exists b, 0. split; [by apply (wf_block_nodes g Hwf) | done].
  - destruct (IH c m Hm) as (bm & j & Hbm & Hj).
    exists bm, (S j). split; [done|].
    eapply up_n_snoc; [done|]. by eapply wf_up_child.
Qed.

Lemma subtree_elem f n m :
  m ∈ subtree f g n ↔
  m = n ∨ ∃ c, c ∈ blocks_of g n ∧ m ∈ preorder_block f g c.
Proof.
  unfold subtree. rewrite elem_of_cons, list_elem_of_bind.
  split; (intros [?|(c & ? & ?)]; [by left | right; by exists c]).
Qed.

Lemma node_not_below_block f b n n' c :
  n ∈ nodes_of g b → n' ∈ nodes_of g b → c ∈ blocks_of g n' →
  n ∉ preorder_block f g c.
Proof.
  intros Hn Hn' Hc (bm & j & Hbm & Hj)%preorder_block_up.
  rewrite (wf_block_nodes g Hwf b n Hn) in Hbm. injection Hbm as <-.
  pose proof (wf_up_child c n' b Hc Hn') as Hup.
  apply (wf_no_cycle j c b Hup). by eapply up_n_snoc.
Qed.

Lemma preorder_block_NoDup f : ∀ b, NoDup (preorder_block f g b).
Proof.
  induction f as [|f IH]; intros b; simpl; [constructor|].
  apply NoDup_bind; [| |apply (wf_nodes_nodup g Hwf)].
  - intros n1 n2 m Hn1 Hn2.
    fold (subtree f g n1). fold (subtree f g n2). rewrite !subtree_elem.
    intros [-> | (c1 & Hc1 & Hm1)] [Heq | (c2 & Hc2 & Hm2)].
    + done.
    + by destruct (node_not_below_block f b n1 n2 c2).
    + subst m. by destruct (node_not_below_block f b n2 n1 c1).
    + destruct (preorder_block_up f c1 m Hm1) as (bm & j1 & Hbm & Hj1).
      destruct (preorder_block_up f c2 m Hm2) as (bm' & j2 & Hbm' & Hj2).
      assert (bm' = bm) as -> by congruence.
      assert (c1 = c2) as ->.
      { eapply up_n_same_parent; [exact Hj1 | exact Hj2 | |];
          by eapply wf_up_child. }
      apply (wf_children g Hwf) in Hc1, Hc2. congruence.
  - intros n Hn. apply NoDup_cons. split.
    + intros (c & Hm & Hc)%list_elem_of_bind.
      by destruct (node_not_below_block f b n n c).
    + apply NoDup_bind; [| by intros; apply IH |].
      * intros c1 c2 m Hc1 Hc2 Hm1 Hm2.
        destruct (preorder_block_up f c1 m Hm1) as (bm & j1 & Hbm & Hj1).
        destruct (preorder_block_up f c2 m Hm2) as (bm' & j2 & Hbm' & Hj2).
        assert (bm' = bm) as -> by congruence.
        eapply up_n_same_parent; [exact Hj1 | exact Hj2 | |];
          by eapply wf_up_child.
      * unfold blocks_of. destruct (node_arena g !! n) as [nd|] eqn:Hnd.
        -- by destruct (wf_arity g Hwf n nd Hnd).
        -- constructor.
Qed.

Lemma preorder_block_mono f : ∀ f' b m,
  f ≤ f' → m ∈ preorder_block f g b → m ∈ preorder_block f' g b.
Proof.
  induction f as [|f IH]; intros f' b m Hle; simpl; [by intros ?%elem_of_nil|].
  destruct f' as [|f']; [lia|]. simpl.
  rewrite !list_elem_of_bind. intros (n & Hm & Hn). exists n. split; [|done].
  apply elem_of_cons in Hm as [-> | (c & Hm & Hc)%list_elem_of_bind];
    [by left | right].
  apply list_elem_of_bind. exists c. split; [|done]. apply IH; [lia | done].
Qed.

Lemma preorder_block_reaches d : ∀ b f m,
  reaches_root d g b = true →
  m ∈ preorder_block (S f) g b → m ∈ preorder_block (d + f) g (block g).
Proof.
  induction d as [|d IH]; intros b f m Hd Hm; [done|].
  destruct (owner_node g b) as [on|] eqn:Hon.
  - pose proof Hon as (blk & Hblk & Hbo)%owner_node_Some.
    simpl in Hd. rewrite Hblk, Hbo in Hd.
    destruct (owner_block g on) as [b'|] eqn:Hb'; [|done].
    replace (S d + f) with (d + S f) by lia.
    apply (IH b' (S f) m Hd).
    change (m ∈ nodes_of g b' ≫= subtree (S f) g).
    apply list_elem_of_bind. exists on. split; [|by apply wf_node_in_block].
    apply subtree_elem. right. exists b. split; [|done].
    by apply (wf_owner g Hwf).
  - assert (b = block g) as ->.
    { apply (wf_root_only g Hwf); [|done].
      simpl in Hd. destruct (block_arena g !! b) eqn:Hblk; [|done].
      by eapply lookup_lt_Some. }
    apply (preorder_block_mono (S f)); [lia | done].
Qed.

Lemma preorder_elem n : n ∈ preorder g ↔ n < length (node_arena g).
Proof.
  split.
  - intros (bm & _ & (nd & Hnd & _)%owner_block_Some & _)%preorder_block_up.
    by eapply lookup_lt_Some.
  - intros Hn. destruct (wf_node_placed g Hwf n Hn) as (b & Hb & Hin).
    unfold preorder.
    replace (length (block_arena g)) with (length (block_arena g) + 0) by lia.
    apply (preorder_block_reaches _ b).
    + apply (wf_acyclic g Hwf). by eapply nodes_of_elem_valid.
    + change (n ∈ nodes_of g b ≫= subtree 0 g).
      apply list_elem_of_bind. exists n. split; [|done].
      apply subtree_elem. by left.
Qed.

(** The pre-order listing of a well-formed graph holds every node of the
    graph once. *)
Theorem preorder_all_nodes : preorder g ≡ₚ node_ids g.
Proof.
  apply NoDup_Permutation.
  - apply preorder_block_NoDup.
  - apply NoDup_seq.
  - intros n. rewrite preorder_elem. unfold node_ids. rewrite elem_of_seq. lia.
Qed.

Lemma preorder_length : length (preorder g) = length (node_arena g).
Proof. by rewrite preorder_all_nodes; unfold node_ids; rewrite length_seq. Qed.

End Listing.

(** ** Visiting one node and what is nested in it *)

Lemma bind_ext_in {A B} (f h : A → list B) (l : list A) :
  (∀ x, x ∈ l → f x = h x) → l ≫= f = l ≫= h.
Proof.
  induction l as [|x l IH]; intros Hext; [done|].
  rewrite !bind_cons. f_equal.
  - apply Hext. by left.
  - apply IH. intros y Hy. apply Hext. by right.
Qed.

(** A block that the owner chain of [b] reaches within [m] steps has an
    exact depth below [m]. *)
Lemma reaches_root_depth g b m :
  reaches_root m g b = true →
  ∃ d, d < m ∧ reaches_root d g b = false ∧ reaches_root (S d) g b = true.
Proof.
  induction m as [|m IH]; [done|]. intros Hm.
  destruct (reaches_root m g b) eqn:Hm'.
  - destruct (IH eq_refl) as (d & ? & ? & ?). exists d. split; [lia | done].
  - exists m. split; [lia | done].
Qed.

Section Subtree.
Context (g : Graph) (Hwf : well_formed g).

(** With enough fuel for the nesting below a block, more fuel lists the
    same nodes. *)
Lemma preorder_block_stable f : ∀ d c f',
  d + f = length (block_arena g) →
  reaches_root d g c = false →
  f ≤ f' →
  preorder_block f' g c = preorder_block f g c.
Proof.
  induction f as [|f IH]; intros d c f' Hd Hreach Hle.
  - assert (nodes_of g c = []) as Hempty.
    { unfold nodes_of. destruct (block_arena g !! c) eqn:Hc; [|done].
      apply lookup_lt_Some in Hc.
      replace d with (length (block_arena g)) in Hreach by lia.
      by rewrite (wf_acyclic g Hwf c Hc) in Hreach. }
    by rewrite !preorder_block_empty.
  - destruct f' as [|f']; [lia|]. simpl.
    apply bind_ext_in. intros n Hn. f_equal.
    apply bind_ext_in. intros c' Hc'.
    apply (IH (S d)); [lia | | lia].
    rewrite (reaches_root_up g d c' c); [done|].
    by apply (wf_up_child g Hwf c' n c).
Qed.

End Subtree.

Lemma subtree_stable g f d b n f' :
  well_formed g →
  d + S f = length (block_arena g) →
  reaches_root d g b = false →
  n ∈ nodes_of g b →
  f ≤ f' →
  subtree f' g n = subtree f g n.
Proof.
  intros Hwf Hd Hreach Hn Hle. unfold subtree. f_equal.
  apply bind_ext_in. intros c Hc.
  apply (preorder_block_stable g Hwf f (S d)); [lia | | done].
  rewrite (reaches_root_up g d c b); [done|].
  by apply (wf_up_child g Hwf c n b).
Qed.

Lemma move_up_fuel_same_block g fuel n n' c on :
  owner_block g n = Some c →
  owner_block g n' = Some c →
  owner_node g c = Some on →
  move_up_fuel fuel g n = move_up_fuel fuel g n'.
Proof.
  intros (nd & Hnd & Hnb)%owner_block_Some (nd' & Hnd' & Hnb')%owner_block_Some
         (blk & Hblk & Hon)%owner_node_Some.
  destruct fuel as [|fuel]; [done|]. simpl.
  unfold move_up_body, get_node, get_block.
  rewrite Hnd, Hnd'. simpl. rewrite Hnb, Hnb', Hblk. simpl. by rewrite Hon.
Qed.

(** ** The checks of the compile spec *)

Section NnapiFacts.
Import Nnapi.
Context {Tensor ScriptModule PyObject PyErr DebugHandles : Type}.
Implicit Types (spec : Dict Tensor) (py : Python Tensor ScriptModule PyObject PyErr).

Lemma contains_find spec key :
  contains spec key = bool_decide (is_Some (dict_find spec key)).
Proof. done. Qed.

Lemma check_compile_spec_ok spec arg :
  spec_input spec = Some arg →
  check_compile_spec spec = Ret (PyErr := PyErr) (arg_value arg, EmptyString).
Proof.
  unfold spec_input, check_compile_spec, dict_at, contains.
  destruct (dict_find spec "forward") as [[| | | |d|]|]; try done. simpl.
  destruct (dict_find d "inputs") as [[| t | ts | | |]|]; try done;
    by intros [= <-].
Qed.

Lemma check_compile_spec_error spec :
  spec_input spec = None →
  ∃ inp, check_compile_spec spec = Ret (PyErr := PyErr) (inp, spec_error spec).
Proof.
  unfold spec_input, spec_error, check_compile_spec, dict_at, contains.
  destruct (dict_find spec "forward") as [[| | | |d|]|]; simpl; eauto.
  destruct (dict_find d "inputs") as [[| t | ts | | |]|]; simpl; eauto; done.
Qed.

Lemma spec_error_nonempty spec : String.length (spec_error spec) ≠ 0.
Proof.
  unfold spec_error.
  destruct (dict_find spec "forward") as [[| | | |d|]|]; try done.
  by destruct (dict_find d "inputs").
Qed.

Lemma foldl_snoc (ts acc : list Tensor) :
  foldl (λ pyInp inpElem, pyInp ++ [inpElem]) acc ts = acc ++ ts.
Proof.
  revert acc. induction ts as [|t ts IH]; intros acc; simpl.
  - by rewrite app_nil_r.
  - by rewrite IH, <- app_assoc.
Qed.

(** The call of the converter, for a compile spec with the format. *)
Lemma preprocess_convert py (out : PyObject) arg :
  (if isTensor (arg_value arg) then
     t ← toTensor (arg_value arg);
     py_convert_model_to_nnapi py out (py_tensor t)
   else
     ts ← toTensorList (arg_value arg);
     py_convert_model_to_nnapi py out
       (py_list (foldl (λ pyInp inpElem, pyInp ++ [inpElem]) [] ts)))
  = py_convert_model_to_nnapi py out arg.
Proof. destruct arg as [t|ts]; simpl; [done|]. by rewrite foldl_snoc. Qed.

End NnapiFacts.

(** ** The step from an [If] node with two empty blocks *)

(** On an [If] node with two empty blocks [move_next] climbs from the node
    at once, without moving to the next position first. *)
Lemma next_empty_if g b i n :
  well_formed g →
  nodes_of g b !! i = Some n →
  empty_if g n →
  next g (it_at b i) = c' ← move_up g n; Ok (node_ptr n, c').
Proof.
  intros Hwf Hn [Hk Hempty]. unfold kind_of in Hk.
  destruct (node_arena g !! n) as [nd|] eqn:Hnd; [|done]. injection Hk as Hk.
  rewrite (blocks_of_lookup _ _ _ Hnd) in Hempty.
  destruct (next_if g Hwf b i n nd Hn Hnd Hk) as (t & e & Hbs & ->).
  rewrite Hbs in Hempty.
  apply Forall_cons in Hempty as [Ht Hempty].
  apply Forall_cons in Hempty as [He _].
  by rewrite !bool_decide_eq_true_2.
Qed.


(** ** Properties of the traversal *)

Import Examples.

(** X1: on a well-formed graph with a node in its root block, with no empty
    [Loop] or [With] body and no [If] with two empty blocks before the end of
    a nested block, the calls of [next()] return every node of the graph
    once, in pre-order, and then the null pointer. *)
Theorem regular_traversal_complete g :
  well_formed g → nodes_of g (block g) ≠ [] →
  region_bodies_nonempty g → empty_ifs_last g →
  nexts (S (length (node_arena g))) g (DepthFirstGraphNodeIterator g) =
    Ok ((node_ptr <$> preorder g) ++ [nullptr], it_null) ∧
  preorder g ≡ₚ node_ids g.
Proof.
  intros Hwf Hroot Hregion Hifs. split; [|by apply preorder_all_nodes].
  rewrite <- (preorder_length g Hwf). by apply traversal_is_preorder.
Qed.

Lemma regular_traversal_complete_witness :
  let g := g_nested in
  nexts 7 g (DepthFirstGraphNodeIterator g) =
    Ok ((node_ptr <$> preorder g) ++ [nullptr], it_null) ∧
  preorder g ≡ₚ node_ids g.
Proof.
  apply (regular_traversal_complete g_nested).
  - apply well_formed_b_sound. vm_compute. reflexivity.
  - vm_compute. discriminate.
  - apply (bool_decide_unpack _). vm_compute. exact I.
  - apply (bool_decide_unpack _). vm_compute. exact I.
Defined.



(** C7: once a call of [next()] has returned the null pointer, the cursor is
    the default-constructed iterator, and every later call returns the null
    pointer again and leaves the cursor as it is. *)
Theorem exhausted_is_terminal g c0 k rs c :
  nexts (S k) g c0 = Ok (rs, c) →
  last rs = Some nullptr →
  c = it_null ∧ ∀ j, nexts j g c = Ok (replicate j nullptr, c).
Proof.
  rewrite nexts_snoc.
  destruct (nexts k g c0) as [[rs0 c1]|]; simpl; [|done].
  destruct (next g c1) as [[r c2]|] eqn:Hn; simpl; [|done].
  intros [= <- <-]. rewrite last_snoc. intros [= ->].
  apply next_returns_null in Hn as [-> ->]. split; [done|].
  apply next_fixed_forever, next_null.
Qed.

Lemma exhausted_is_terminal_witness :
  let g := g_plain in
  nexts 4 g (DepthFirstGraphNodeIterator g) =
    Ok ([node_ptr 0; node_ptr 1; node_ptr 2; nullptr], it_null) ∧
  last [node_ptr 0; node_ptr 1; node_ptr 2; nullptr] = Some nullptr ∧
  (it_null = it_null ∧
   ∀ j, nexts j g it_null = Ok (replicate j nullptr, it_null)).
Proof.
  split; [reflexivity|]. split; [reflexivity|].
  apply (exhausted_is_terminal g_plain (DepthFirstGraphNodeIterator g_plain) 3
           [node_ptr 0; node_ptr 1; node_ptr 2; nullptr] it_null);
    reflexivity.
Defined.

(** C10: in a well-formed graph whose root block has a node, the cursor
    after construction and after any number of calls of [next()] stands on a
    node of some block or is the default-constructed iterator; it is at no
    block's end. *)
Theorem cursor_never_at_block_end g :
  well_formed g → nodes_of g (block g) ≠ [] →
  ∀ k, ∃ rs c,
    nexts k g (DepthFirstGraphNodeIterator g) = Ok (rs, c) ∧
    cursor_ok g c ∧ ∀ b, c ≠ end_ g b.
Proof.
  intros Hwf Hroot k.
  destruct (nexts_ok g Hwf k (DepthFirstGraphNodeIterator g)) as (rs & c & Hk & Hc).
  { right. by apply at_node_begin. }
  exists rs, c. split; [done|]. split; [done|].
  intros b. destruct Hc as [-> | Hc]; [done | by apply at_node_not_end].
Qed.

Lemma cursor_never_at_block_end_witness :
  let g := g_nested in
  well_formed g ∧ nodes_of g (block g) ≠ [] ∧
  ∀ k, ∃ rs c,
    nexts k g (DepthFirstGraphNodeIterator g) = Ok (rs, c) ∧
    cursor_ok g c ∧ ∀ b, c ≠ end_ g b.
Proof.
  assert (well_formed g_nested) as Hwf.
  { apply well_formed_b_sound. vm_compute. reflexivity. }
  assert (nodes_of g_nested (block g_nested) ≠ []) as Hroot.
  { vm_compute. discriminate. }
  split; [exact Hwf|]. split; [exact Hroot|].
  exact (cursor_never_at_block_end g_nested Hwf Hroot).
Defined.

(** C9: when the node that owns the exhausted block is neither an [If] nor
    a [Loop] nor a [With], the climb throws the runtime error "Node should
    not have had any child blocks." and yields no cursor, and so does the
    call of [next()] that climbs from the last node of such a block; in a
    well-formed graph neither a climb nor any sequence of calls of [next()]
    throws. *)
Theorem invalid_owner_kind_is_fatal :
  (∀ g from b on ond b',
     owner_block g from = Some b →
     owner_node g b = Some on →
     node_arena g !! on = Some ond →
     owningBlock ond = Some b' →
     on ∈ nodes_of g b' →
     kind ond = other_kind →
     move_up g from = Err (runtime_error no_child_blocks_msg) ∧
     ∀ i, nodes_of g b !! i = Some from →
          S i = length (nodes_of g b) →
          kind_of g from = Some other_kind →
          next g (it_at b i) = Err (runtime_error no_child_blocks_msg)) ∧
  (∀ g msg,
     well_formed g →
     (∀ fuel from, move_up_fuel fuel g from ≠ Err (runtime_error msg)) ∧
     (∀ k c, nexts k g c ≠ Err (runtime_error msg))).
Proof.
  split.
  - intros g from b on ond b' Hfrom Hb Hond Hb' Hin Hkind.
    pose proof (move_up_bad_owner g from b on ond b'
                  Hfrom Hb Hond Hb' Hin Hkind) as Hup.
    split; [done|]. intros i Hi Hlast Hplain.
    apply owner_block_Some in Hfrom as (nd & Hnd & Hnb).
    apply owner_node_Some in Hb as (blk & Hblk & _).
    unfold kind_of in Hplain. rewrite Hnd in Hplain. injection Hplain as Hplain.
    unfold next, move_next. simpl. rewrite Hi.
    unfold get_node, get_block. rewrite Hnd. simpl.
    rewrite Hplain, Hnb. simpl. rewrite Hblk. simpl.
    fold (at_end_after g b i).
    rewrite at_end_after_spec, bool_decide_eq_true_2 by done.
    by rewrite Hup.
  - intros g msg Hwf. split.
    + intros fuel from. by apply move_up_fuel_no_throw.
    + intros k c. by apply nexts_no_throw.
Qed.

Lemma invalid_owner_kind_is_fatal_witness :
  (let g := g_bad_owner in
   owner_block g 1 = Some 1 ∧ owner_node g 1 = Some 0 ∧
   node_arena g !! 0 = Some (plain 0) ∧ owningBlock (plain 0) = Some 0 ∧
   0 ∈ nodes_of g 0 ∧ kind (plain 0) = other_kind ∧
   move_up g 1 = Err (runtime_error no_child_blocks_msg) ∧
   next g (it_at 1 0) = Err (runtime_error no_child_blocks_msg)) ∧
  (let g := g_nested in
   well_formed g ∧
   (∀ fuel from,
      move_up_fuel fuel g from ≠ Err (runtime_error no_child_blocks_msg)) ∧
   (∀ k c, nexts k g c ≠ Err (runtime_error no_child_blocks_msg))).
Proof.
  split.
  - assert (0 ∈ nodes_of g_bad_owner 0) as Hin by (vm_compute; left).
    do 6 (split; [first [exact Hin | reflexivity]|]).
    destruct (proj1 invalid_owner_kind_is_fatal g_bad_owner 1 1 0 (plain 0) 0
                eq_refl eq_refl eq_refl eq_refl Hin eq_refl) as [Hup Hnext].
    split; [exact Hup|]. apply Hnext; reflexivity.
  - assert (well_formed g_nested) as Hwf.
    { apply well_formed_b_sound. vm_compute. reflexivity. }
    split; [exact Hwf|].
    exact (proj2 invalid_owner_kind_is_fatal g_nested no_child_blocks_msg Hwf).
Defined.

(** C8: for a graph whose root block has no node, the constructor leaves
    the cursor at the end of the root block, which is not the
    default-constructed iterator; the value the first call of [next()] reads
    is the end entry of the root block and not the null pointer. *)
Theorem empty_root_not_exhausted g :
  nodes_of g (block g) = [] →
  DepthFirstGraphNodeIterator g = end_ g (block g) ∧
  DepthFirstGraphNodeIterator g ≠ it_null ∧
  deref g (DepthFirstGraphNodeIterator g) = end_of (block g) ∧
  ∀ c', next g (DepthFirstGraphNodeIterator g) ≠ Ok (nullptr, c').
Proof.
  intros Hroot. unfold DepthFirstGraphNodeIterator, begin_, end_.
  rewrite Hroot. simpl. rewrite Hroot. simpl.
  repeat (split; [done|]).
  intros c' Hn. by apply next_returns_null in Hn as [? _].
Qed.

Lemma empty_root_not_exhausted_witness :
  let g := g_empty in
  well_formed g ∧ nodes_of g (block g) = [] ∧
  DepthFirstGraphNodeIterator g = end_ g (block g) ∧
  DepthFirstGraphNodeIterator g ≠ it_null ∧
  deref g (DepthFirstGraphNodeIterator g) = end_of (block g) ∧
  ∀ c', next g (DepthFirstGraphNodeIterator g) ≠ Ok (nullptr, c').
Proof.
  split; [apply well_formed_b_sound; vm_compute; reflexivity|].
  split; [reflexivity|].
  exact (empty_root_not_exhausted g_empty eq_refl).
Defined.

(** C1: on the well-formed root block [[A; Loop(body=[]); D]] the calls of
    [next()] return A, then the [Loop] node, then the [Loop] node again and
    again; the cursor stays on the [Loop] node, and D is not reached. *)
Theorem empty_region_body_stalls :
  well_formed g_empty_region ∧
  nexts 4 g_empty_region (DepthFirstGraphNodeIterator g_empty_region) =
    Ok ([node_ptr 0; node_ptr 1; node_ptr 1; node_ptr 1], it_at 0 1).
Proof.
  split; [apply well_formed_b_sound; vm_compute; reflexivity | reflexivity].
Qed.

(** C6: on the well-formed root block [[A; Loop(body=[]); D]] no number of
    calls of [next()] reaches the null pointer: after A, every call returns
    the [Loop] node. *)
Theorem empty_region_never_exhausts :
  well_formed g_empty_region ∧
  ∀ k, nexts (2 + k) g_empty_region (DepthFirstGraphNodeIterator g_empty_region) =
    Ok (node_ptr 0 :: replicate (S k) (node_ptr 1), it_at 0 1).
Proof.
  split; [apply well_formed_b_sound; vm_compute; reflexivity|].
  intros k.
  change (nexts (2 + k) g_empty_region (DepthFirstGraphNodeIterator g_empty_region))
    with (nexts (1 + (S k)) g_empty_region (it_at 0 0)).
  rewrite (nexts_app 1 (S k) g_empty_region (it_at 0 0) [node_ptr 0]
             (it_at 0 1) eq_refl).
  rewrite (next_fixed_forever g_empty_region (it_at 0 1) (node_ptr 1)); [done|].
  eapply (region_empty_body_stays _ _ 1); try reflexivity; [by left | by eexists].
Qed.

(** C2: the sequence returned is not each node once.  On the well-formed
    root block [[A; Loop(body=[]); D]] the [Loop] node is returned twice in
    the first three calls.  On the well-formed root block
    [[Loop(body=[If(then=[], else=[]); X]); D]], which has four nodes, the
    calls return the [Loop] node, the [If] node, D and then the null
    pointer: X is left out. *)
Theorem traversal_repeats_and_skips :
  (well_formed g_empty_region ∧
   nexts 3 g_empty_region (DepthFirstGraphNodeIterator g_empty_region) =
     Ok ([node_ptr 0; node_ptr 1; node_ptr 1], it_at 0 1)) ∧
  (well_formed g_skip ∧ length (node_arena g_skip) = 4 ∧
   nexts 4 g_skip (DepthFirstGraphNodeIterator g_skip) =
     Ok ([node_ptr 0; node_ptr 1; node_ptr 3; nullptr], it_null)).
Proof.
  split.
  - split; [apply well_formed_b_sound; vm_compute; reflexivity | reflexivity].
  - split; [apply well_formed_b_sound; vm_compute; reflexivity|].
    split; reflexivity.
Qed.

(** C3: on the well-formed root block
    [[Loop(body=[If(then=[], else=[]); X]); D]] the node X of the [Loop]'s
    body is returned neither before D, the sibling after the [Loop], nor
    later: the calls return the [Loop] node, the [If] node, D, and from
    then on the null pointer. *)
Theorem body_node_not_before_sibling :
  well_formed g_skip ∧
  blocks_of g_skip 0 = [1] ∧ nodes_of g_skip 1 = [1; 2] ∧
  ∀ k, nexts (3 + k) g_skip (DepthFirstGraphNodeIterator g_skip) =
    Ok ([node_ptr 0; node_ptr 1; node_ptr 3] ++ replicate k nullptr, it_null).
Proof.
  split; [apply well_formed_b_sound; vm_compute; reflexivity|].
  do 2 (split; [reflexivity|]). intros k.
  change (nexts (3 + k) g_skip (DepthFirstGraphNodeIterator g_skip))
    with (nexts (3 + k) g_skip (it_at 0 0)).
  rewrite (nexts_app 3 k g_skip (it_at 0 0)
             [node_ptr 0; node_ptr 1; node_ptr 3] it_null eq_refl).
  by rewrite (next_fixed_forever g_skip it_null nullptr (next_null _)).
Qed.

(** C4: on the well-formed root block [[If(then=[With(body=[])], else=[C])]],
    whose then-block and else-block both have a node, the else-block is not
    visited: after the [If] node every call returns the [With] node of the
    then-block. *)
Theorem else_block_not_reached :
  well_formed g_then_stall ∧
  blocks_of g_then_stall 0 = [1; 2] ∧
  nodes_of g_then_stall 1 = [1] ∧ nodes_of g_then_stall 2 = [2] ∧
  ∀ k, nexts (2 + k) g_then_stall (DepthFirstGraphNodeIterator g_then_stall) =
    Ok (node_ptr 0 :: replicate (S k) (node_ptr 1), it_at 1 0).
Proof.
  split; [apply well_formed_b_sound; vm_compute; reflexivity|].
  do 3 (split; [reflexivity|]). intros k.
  change (nexts (2 + k) g_then_stall (DepthFirstGraphNodeIterator g_then_stall))
    with (nexts (1 + (S k)) g_then_stall (it_at 0 0)).
  rewrite (nexts_app 1 (S k) g_then_stall (it_at 0 0) [node_ptr 0]
             (it_at 1 0) eq_refl).
  rewrite (next_fixed_forever g_then_stall (it_at 1 0) (node_ptr 1)); [done|].
  eapply (region_empty_body_stays _ _ 1); try reflexivity; [by right | by eexists].
Qed.

(** ** Further properties of the traversal *)

(** X2: in a well-formed graph with no empty [Loop] or [With] body and no
    [If] with two empty blocks before the end of a nested block, the calls
    of [next()] that start on a node with a following sibling return that
    node, then the nodes nested in it in pre-order, and leave the cursor on
    the sibling. *)
Theorem nested_nodes_before_sibling g b i n :
  well_formed g → region_bodies_nonempty g → empty_ifs_last g →
  nodes_of g b !! i = Some n →
  S i < length (nodes_of g b) →
  let ns := subtree (length (block_arena g)) g n in
  nexts (length ns) g (it_at b i) = Ok (node_ptr <$> ns, it_at b (S i)).
Proof.
  intros Hwf Hregion Hifs Hn Hi ns.
  assert (n ∈ nodes_of g b) as Hin by by eapply list_elem_of_lookup_2.
  destruct (reaches_root_depth g b (length (block_arena g))) as (d & Hd & Hlo & _).
  { apply (wf_acyclic g Hwf). by eapply nodes_of_elem_valid. }
  set (f := length (block_arena g) - S d).
  assert (ns = subtree f g n) as ->.
  { apply (subtree_stable g f d b); try done; unfold f; lia. }
  apply (traverse_node g Hwf Hregion Hifs f (traverse_block g Hwf Hregion Hifs f)
           b d i n); [unfold f; lia | done | done |].
  unfold advance_or_up.
  by rewrite at_end_after_spec, bool_decide_eq_false_2 by lia.
Qed.

Lemma nested_nodes_before_sibling_witness :
  let g := g_nested in
  nexts 4 g (it_at 0 1) =
    Ok ([node_ptr 1; node_ptr 2; node_ptr 3; node_ptr 4], it_at 0 2).
Proof.
  apply (nested_nodes_before_sibling g_nested 0 1 1).
  - apply well_formed_b_sound. vm_compute. reflexivity.
  - apply (bool_decide_unpack _). vm_compute. exact I.
  - apply (bool_decide_unpack _). vm_compute. exact I.
  - reflexivity.
  - vm_compute. lia.
Defined.

(** X3: in a well-formed graph the climb from any node completes within as
    many calls of [move_up] as the graph has blocks, and leaves the cursor on
    a node or as the default-constructed iterator; a larger bound on the
    calls gives the same cursor. *)
Theorem climb_completes g from :
  well_formed g → from < length (node_arena g) →
  ∃ c, move_up g from = Ok c ∧ cursor_ok g c ∧
       ∀ fuel, length (block_arena g) ≤ fuel → move_up_fuel fuel g from = Ok c.
Proof.
  intros Hwf Hfrom. destruct (move_up_ok g Hwf from Hfrom) as (c & Hc & Hok).
  exists c. split; [done|]. split; [done|].
  intros fuel Hle. unfold move_up in Hc.
  induction Hle as [|fuel Hle IH]; [done|]. by apply move_up_fuel_mono.
Qed.

Lemma climb_completes_witness :
  let g := g_nested in
  ∃ c, move_up g 4 = Ok c ∧ cursor_ok g c ∧
       ∀ fuel, length (block_arena g) ≤ fuel → move_up_fuel fuel g 4 = Ok c.
Proof.
  apply (climb_completes g_nested 4).
  - apply well_formed_b_sound. vm_compute. reflexivity.
  - vm_compute. lia.
Defined.

(** X4: the climb out of a block that has an owning node does not depend
    on the node it starts from: two nodes of the block climb to the same
    cursor, whether or not they are the last node of the block. *)
Theorem climb_ignores_position g n n' c on :
  owner_block g n = Some c →
  owner_block g n' = Some c →
  owner_node g c = Some on →
  move_up g n = move_up g n'.
Proof. intros. unfold move_up. by eapply move_up_fuel_same_block. Qed.

Lemma climb_ignores_position_witness :
  let g := g_skip in
  move_up g 1 = move_up g 2 ∧ move_up g 2 = Ok (it_at 0 1).
Proof.
  split; [|reflexivity].
  apply (climb_ignores_position g_skip 1 2 1 0); reflexivity.
Defined.

(** X5: in a well-formed graph the climb from the node at position [i] of
    the root block moves the cursor to position [i + 1] of the root block,
    and to the default-constructed iterator when that is the block's end. *)
Theorem climb_in_root_block g i n :
  well_formed g →
  nodes_of g (block g) !! i = Some n →
  move_up g n =
    Ok (if bool_decide (S i = length (nodes_of g (block g))) then it_null
        else it_at (block g) (S i)).
Proof.
  intros Hwf Hn. rewrite (move_up_root g Hwf i n Hn), at_end_after_spec.
  by case_bool_decide.
Qed.

Lemma climb_in_root_block_witness :
  let g := g_nested in
  move_up g 1 = Ok (it_at 0 2) ∧ move_up g 5 = Ok it_null.
Proof.
  assert (well_formed g_nested) as Hwf.
  { apply well_formed_b_sound. vm_compute. reflexivity. }
  split.
  - exact (climb_in_root_block g_nested 1 1 Hwf eq_refl).
  - exact (climb_in_root_block g_nested 2 5 Hwf eq_refl).
Defined.

(** X6: in a well-formed graph the climb out of the body of a [Loop] or
    [With] node, or out of the else-block of an [If] node, moves the cursor
    to the node after the owning node in the owning node's block; when the
    owning node is the last of its block, the climb goes on from the owning
    node. *)
Theorem climb_resumes_after_owner g n c on ond b i :
  well_formed g →
  owner_block g n = Some c →
  owner_node g c = Some on →
  node_arena g !! on = Some ond →
  nodes_of g b !! i = Some on →
  kind ond = prim_Loop ∨ kind ond = prim_With ∨
    (kind ond = prim_If ∧ blocks ond !! 1 = Some c) →
  move_up g n =
    if bool_decide (S i = length (nodes_of g b)) then move_up g on
    else Ok (it_at b (S i)).
Proof.
  intros Hwf Hnc Hc Hond Hon Hk.
  rewrite (move_up_child g Hwf n c on ond b i Hnc Hc Hond Hon).
  destruct (wf_owner_kind g Hwf c on ond Hc Hond) as [_ Hkind].
  unfold after_child, advance_or_up. rewrite at_end_after_spec.
  destruct Hk as [Hk | [Hk | [Hk He]]]; rewrite Hk in *.
  - by rewrite Hkind.
  - by rewrite Hkind.
  - destruct Hkind as (t & e & Hbs & _). rewrite Hbs in *.
    injection He as ->. by rewrite decide_True.
Qed.

Lemma climb_resumes_after_owner_witness :
  let g := g_nested in
  move_up g 3 = Ok (it_at 0 2) ∧ move_up g 4 = move_up g 3.
Proof.
  assert (well_formed g_nested) as Hwf.
  { apply well_formed_b_sound. vm_compute. reflexivity. }
  split.
  - apply (climb_resumes_after_owner g_nested 3 1 1
             (mkNode prim_Loop (Some 0) [1]) 0 1 Hwf); try reflexivity.
    by left.
  - apply (climb_resumes_after_owner g_nested 4 2 3
             (mkNode prim_Loop (Some 1) [2]) 1 1 Hwf); try reflexivity.
    by left.
Defined.

(** X7: in a well-formed graph the climb out of the then-block of an [If]
    node moves the cursor to the first node of the else-block when the
    else-block has a node; when the else-block is empty, it moves to the
    node after the [If] node, or goes on from the [If] node when that is
    the last of its block. *)
Theorem then_block_falls_through g n t e on ond b i :
  well_formed g →
  owner_block g n = Some t →
  node_arena g !! on = Some ond →
  kind ond = prim_If →
  blocks ond = [t; e] →
  nodes_of g b !! i = Some on →
  move_up g n =
    if bool_decide (nodes_of g e = []) then
      if bool_decide (S i = length (nodes_of g b)) then move_up g on
      else Ok (it_at b (S i))
    else Ok (begin_ e).
Proof.
  intros Hwf Hnt Hond Hk Hbs Hon.
  assert (owner_node g t = Some on) as Ht.
  { apply (wf_children g Hwf). rewrite (blocks_of_lookup _ _ _ Hond), Hbs.
    by left. }
  rewrite (move_up_child g Hwf n t on ond b i Hnt Ht Hond Hon).
  destruct (wf_arity g Hwf on ond Hond) as [_ Hnodup]. rewrite Hbs in Hnodup.
  apply NoDup_cons in Hnodup as [Hnotin _].
  unfold after_child, advance_or_up. rewrite Hk, Hbs, at_end_after_spec.
  rewrite decide_False; [done|]. intros ->. apply Hnotin. by left.
Qed.

Lemma then_block_falls_through_witness :
  let g := g_cond in
  move_up g 2 = Ok (it_at 2 0).
Proof.
  apply (then_block_falls_through g_cond 2 1 2 1
           (mkNode prim_If (Some 0) [1; 2]) 0 1); try reflexivity.
  apply well_formed_b_sound. vm_compute. reflexivity.
Defined.

(** X8: when the cursor stands on a [Loop] or [With] node whose body block
    is empty, [next()] returns that node and leaves the cursor where it is,
    so every later call returns the same node. *)
Theorem empty_body_repeats g c n body bs :
  deref g c = node_ptr n →
  kind_of g n = Some prim_Loop ∨ kind_of g n = Some prim_With →
  blocks_of g n = body :: bs →
  is_Some (block_arena g !! body) →
  nodes_of g body = [] →
  ∀ k, nexts k g c = Ok (replicate k (node_ptr n), c).
Proof.
  intros Hd Hk Hbs Hbody Hempty.
  apply next_fixed_forever.
  unfold kind_of, blocks_of in *.
  destruct (node_arena g !! n) as [nd|] eqn:Hnd; [|by destruct Hk].
  apply (region_empty_body_stays g c n nd body bs); try done.
  destruct Hk as [[= ->] | [= ->]]; [by left | by right].
Qed.

Lemma empty_body_repeats_witness :
  let g := g_then_stall in
  nexts 3 g (it_at 1 0) = Ok ([node_ptr 1; node_ptr 1; node_ptr 1], it_at 1 0).
Proof.
  apply (empty_body_repeats g_then_stall (it_at 1 0) 1 3 [] eq_refl
           (or_intror eq_refl) eq_refl (ex_intro _ _ eq_refl) eq_refl 3).
Defined.

(** X12: after [next()] returns an [If] node of a well-formed graph, the
    cursor stands on the first node of the then-block when that block has a
    node; otherwise on the first node of the else-block when that block has a
    node; otherwise, when the [If] node is in the root block, on the node
    after it, or the iterator is exhausted when it is the last node of the
    root block. *)
Theorem conditional_step g b i n :
  well_formed g → nodes_of g b !! i = Some n →
  kind_of g n = Some prim_If →
  ∃ t e, blocks_of g n = [t; e] ∧
    match nodes_of g t, nodes_of g e with
    | f :: _, _ =>
        next g (it_at b i) = Ok (node_ptr n, begin_ t) ∧
        deref g (begin_ t) = node_ptr f
    | [], f :: _ =>
        next g (it_at b i) = Ok (node_ptr n, begin_ e) ∧
        deref g (begin_ e) = node_ptr f
    | [], [] =>
        b = block g →
        next g (it_at b i) =
          Ok (node_ptr n,
              if bool_decide (S i = length (nodes_of g b)) then it_null
              else it_at b (S i))
    end.
Proof.
  intros Hwf Hn Hk. pose proof Hk as Hk'. unfold kind_of in Hk.
  destruct (node_arena g !! n) as [nd|] eqn:Hnd; [|done].
  injection Hk as Hk. rewrite (blocks_of_lookup _ _ _ Hnd).
  destruct (next_if g Hwf b i n nd Hn Hnd Hk) as (t & e & Hbs & Hnext).
  exists t, e. split; [done|].
  destruct (nodes_of g t) as [|f l] eqn:Ht.
  - destruct (nodes_of g e) as [|f l] eqn:He.
    + intros ->. rewrite (next_empty_if g (block g) i n Hwf Hn).
      * rewrite (move_up_root g Hwf i n Hn), at_end_after_spec.
        by destruct (bool_decide (S i = length (nodes_of g (block g)))).
      * split; [done|]. rewrite (blocks_of_lookup _ _ _ Hnd), Hbs.
        by repeat constructor.
    + split; [by rewrite Hnext | apply deref_node; by rewrite He].
  - split; [by rewrite Hnext | apply deref_node; by rewrite Ht].
Qed.

Lemma conditional_step_witness :
  (let g := g_empty_if_root in
   ∃ t e, blocks_of g 0 = [t; e] ∧ nodes_of g t = [] ∧ nodes_of g e = [] ∧
     next g (it_at 0 0) = Ok (node_ptr 0, it_at 0 1)) ∧
  (let g := g_cond_else in
   next g (it_at 0 1) = Ok (node_ptr 1, it_at 2 0) ∧
   deref g (it_at 2 0) = node_ptr 2).
Proof.
  split.
  - destruct (conditional_step g_empty_if_root 0 0 0) as (t & e & Hbs & H);
      [apply well_formed_b_sound; vm_compute; reflexivity | reflexivity
      | reflexivity |].
    injection Hbs as <- <-. exists 1, 2. do 3 (split; [reflexivity|]).
    exact (H eq_refl).
  - destruct (conditional_step g_cond_else 0 1 1) as (t & e & Hbs & H);
      [apply well_formed_b_sound; vm_compute; reflexivity | reflexivity
      | reflexivity |].
    injection Hbs as <- <-. exact H.
Defined.

(** ** Properties of [preprocess] *)

(** X9: [preprocess] returns exactly when the compile spec has the format
    [{"forward": {"inputs": Tensor}}] or [{"forward": {"inputs": TensorList}}]
    and every call into Python succeeds.  The converter is called once, on
    the wrapped module after [eval] and on the tensor, or on the list of the
    tensors in their order, and the result is the dictionary with the one
    key ["NnapiModule"], bound to the serialized converted module. *)
Theorem preprocess_returns {Tensor ScriptModule PyObject PyErr DebugHandles}
    (py : Nnapi.Python Tensor ScriptModule PyObject PyErr)
    (m : ScriptModule) (spec : Nnapi.Dict Tensor) (h : DebugHandles) r :
  Nnapi.preprocess py m spec h = Nnapi.Ret r ↔
  ∃ arg out out' p md ss,
    Nnapi.spec_input spec = Some arg ∧
    Nnapi.py_import_convert py = Nnapi.Ret () ∧
    Nnapi.py_wrap_cpp_module py m = Nnapi.Ret out ∧
    Nnapi.py_eval py out = Nnapi.Ret out' ∧
    Nnapi.py_convert_model_to_nnapi py out' arg = Nnapi.Ret p ∧
    Nnapi.py_cast_c py p = Nnapi.Ret md ∧
    Nnapi.save_for_mobile py md = Nnapi.Ret ss ∧
    r = [(Nnapi.IVString "NnapiModule", Nnapi.IVString ss)].
Proof.
  unfold Nnapi.preprocess. split.
  - destruct (Nnapi.py_import_convert py) as [[]|] eqn:Himp; simpl; [|done].
    destruct (Nnapi.py_wrap_cpp_module py m) as [out|] eqn:Hwrap; simpl; [|done].
    destruct (Nnapi.py_eval py out) as [out'|] eqn:Heval; simpl; [|done].
    destruct (Nnapi.spec_input spec) as [arg|] eqn:Hin.
    + rewrite (check_compile_spec_ok spec arg Hin). simpl.
      rewrite preprocess_convert.
      destruct (Nnapi.py_convert_model_to_nnapi py out' arg) as [p|] eqn:Hp;
        simpl; [|done].
      destruct (Nnapi.py_cast_c py p) as [md|] eqn:Hmd; simpl; [|done].
      destruct (Nnapi.save_for_mobile py md) as [ss|] eqn:Hss; simpl; [|done].
      intros [= <-]. by exists arg, out, out', p, md, ss.
    + destruct (check_compile_spec_error (PyErr := PyErr) spec Hin) as [inp ->].
      simpl. by rewrite bool_decide_eq_true_2 by apply spec_error_nonempty.
  - intros (arg & out & out' & p & md & ss & Hin & Himp & Hwrap & Heval
            & Hp & Hmd & Hss & ->).
    rewrite Himp. simpl. rewrite Hwrap. simpl. rewrite Heval. simpl.
    rewrite (check_compile_spec_ok spec arg Hin). simpl.
    rewrite preprocess_convert, Hp. simpl. rewrite Hmd. simpl. by rewrite Hss.
Qed.

Lemma preprocess_returns_witness :
  Nnapi.preprocess NnapiExamples.py_sum 4 NnapiExamples.spec_list () =
    Nnapi.Ret [(Nnapi.IVString "NnapiModule", Nnapi.IVString "blob")].
Proof.
  apply (proj2 (preprocess_returns NnapiExamples.py_sum 4
                  NnapiExamples.spec_list () _)).
  exists (Nnapi.py_list [1; 2]), 4, 4, 7, 7, "blob". repeat split.
Defined.

(** X10: when the compile spec lacks the format and the module has been
    imported, wrapped and put in eval mode, [preprocess] throws a
    [std::runtime_error], whatever the converter would do.  The message
    names the first test that failed (no ["forward"] key; no dictionary with
    an ["inputs"] key under it; neither a tensor nor a tensor list under
    that) and ends with the description of the format. *)
Theorem preprocess_rejects_malformed_spec
    {Tensor ScriptModule PyObject PyErr DebugHandles}
    (py : Nnapi.Python Tensor ScriptModule PyObject PyErr)
    (m : ScriptModule) (spec : Nnapi.Dict Tensor) (h : DebugHandles) out out' :
  Nnapi.spec_input spec = None →
  Nnapi.py_import_convert py = Nnapi.Ret () →
  Nnapi.py_wrap_cpp_module py m = Nnapi.Ret out →
  Nnapi.py_eval py out = Nnapi.Ret out' →
  Nnapi.preprocess py m spec h =
    Nnapi.Throw (Nnapi.std_runtime_error
                   (Nnapi.spec_error spec +:+ Nnapi.format_help)).
Proof.
  intros Hin Himp Hwrap Heval. unfold Nnapi.preprocess.
  rewrite Himp. simpl. rewrite Hwrap. simpl. rewrite Heval. simpl.
  destruct (check_compile_spec_error (PyErr := PyErr) spec Hin) as [inp ->].
  simpl. by rewrite bool_decide_eq_true_2 by apply spec_error_nonempty.
Qed.

Lemma preprocess_rejects_malformed_spec_witness :
  Nnapi.preprocess NnapiExamples.py_sum 4 NnapiExamples.spec_no_inputs () =
    Nnapi.Throw (Nnapi.std_runtime_error
                   (Nnapi.no_inputs_msg +:+ Nnapi.format_help)).
Proof.
  exact (preprocess_rejects_malformed_spec NnapiExamples.py_sum 4
           NnapiExamples.spec_no_inputs () 4 4 eq_refl eq_refl eq_refl eq_refl).
Defined.

(** X11: when the calls into Python raise nothing but Python's own errors,
    whatever [preprocess] throws is such an error or the
    [std::runtime_error] for a compile spec that lacks the format: the
    guarded accessors [at], [toGenericDict], [toTensor] and [toTensorList]
    never fail. *)
Theorem preprocess_throws_only
    {Tensor ScriptModule PyObject PyErr DebugHandles}
    (py : Nnapi.Python Tensor ScriptModule PyObject PyErr)
    (m : ScriptModule) (spec : Nnapi.Dict Tensor) (h : DebugHandles) e :
  Nnapi.python_raises py →
  Nnapi.preprocess py m spec h = Nnapi.Throw e →
  (∃ pe, e = Nnapi.python_error pe) ∨
  (Nnapi.spec_input spec = None ∧
   e = Nnapi.std_runtime_error (Nnapi.spec_error spec +:+ Nnapi.format_help)).
Proof.
  intros (Himp & Hwrap & Heval & Hconv & Hcast & Hsave).
  unfold Nnapi.preprocess.
  destruct (Nnapi.py_import_convert py) as [[]|e0] eqn:H0; simpl.
  2:{ intros [= <-]. left. by apply Himp. }
  destruct (Nnapi.py_wrap_cpp_module py m) as [out|e1] eqn:H1; simpl.
  2:{ intros [= <-]. left. by eapply Hwrap. }
  destruct (Nnapi.py_eval py out) as [out'|e2] eqn:H2; simpl.
  2:{ intros [= <-]. left. by eapply Heval. }
  destruct (Nnapi.spec_input spec) as [arg|] eqn:Hin.
  - rewrite (check_compile_spec_ok spec arg Hin). simpl.
    rewrite preprocess_convert.
    destruct (Nnapi.py_convert_model_to_nnapi py out' arg) as [p|e3] eqn:H3; simpl.
    2:{ intros [= <-]. left. by eapply Hconv. }
    destruct (Nnapi.py_cast_c py p) as [md|e4] eqn:H4; simpl.
    2:{ intros [= <-]. left. by eapply Hcast. }
    destruct (Nnapi.save_for_mobile py md) as [ss|e5] eqn:H5; simpl; [done|].
    intros [= <-]. left. by eapply Hsave.
  - destruct (check_compile_spec_error (PyErr := PyErr) spec Hin) as [inp ->].
    simpl. rewrite bool_decide_eq_true_2 by apply spec_error_nonempty.
    intros [= <-]. by right.
Qed.

Lemma preprocess_throws_only_witness :
  (∃ pe : unit, Nnapi.std_runtime_error
     (Nnapi.no_inputs_msg +:+ Nnapi.format_help) = Nnapi.python_error pe) ∨
  (Nnapi.spec_input NnapiExamples.spec_no_inputs = None ∧
   Nnapi.std_runtime_error (PyErr := unit)
     (Nnapi.no_inputs_msg +:+ Nnapi.format_help) =
   Nnapi.std_runtime_error
     (Nnapi.spec_error NnapiExamples.spec_no_inputs +:+ Nnapi.format_help)).
Proof.
  apply (preprocess_throws_only NnapiExamples.py_sum 4
           NnapiExamples.spec_no_inputs ()).
  - repeat split; intros; intros e He; discriminate He.
  - reflexivity.
Defined.
